(** * Result and AsyncResult: a shallow embedding and its properties

    The development follows [src/core/Result.ts] and
    [src/core/AsyncResult.ts].

    - JavaScript values are a small universe [JsValue]; a TypeScript
      [T | Promise<T>] parameter is the sum [Awaitable].
    - A computation is a function of the [World] (the store of
      [AsyncResult] objects and a log the caller's functions may write to)
      to an [Outcome]: it returns, raises, or never completes.  For an
      [async] function the outcome is the settlement of the promise it
      returns; [await] turns a promise into its outcome.
    - [Result] objects are immutable and are plain values; [AsyncResult]
      objects have a mutable private field and live in the store. *)

From Stdlib Require Import ZArith DecimalString.
From stdpp Require Import base option list strings.

Set Default Proof Using "Type".
Set Warnings "-register-all".

(** ** JavaScript values *)

(** Numbers: the doubles that integer literals denote, NaN and negative
    zero. *)
Inductive JsNum :=
| NaN
| NegZero
| Finite (z : Z).

(** A reference to an [AsyncResult] object of the store. *)
Abbreviation ref := nat (only parsing).

(** [JsObject props] is an ordinary object, with the prototype
    [Object.prototype] and the own data properties [props]. *)
Inductive JsValue :=
| JsUndefined
| JsNull
| JsBool (b : bool)
| JsNumber (n : JsNum)
| JsString (s : string)
| JsSymbol (description : string)
| JsError (name message : string)
| JsObject (props : list (string * JsValue))
| JsAsyncResult (this : ref).

(** [new Error(message)] and the [TypeError] of the language itself. *)
Definition Error (message : string) : JsValue := JsError "Error" message.
Definition TypeError (message : string) : JsValue := JsError "TypeError" message.

(** [ToBoolean] (ECMA-262, 7.1.2): the truthiness test behind [!x]. *)
Definition ToBoolean (v : JsValue) : bool :=
  match v with
  | JsUndefined | JsNull => false
  | JsBool b => b
  | JsNumber NaN | JsNumber NegZero => false
  | JsNumber (Finite z) => negb (z =? 0)%Z
  | JsString s => negb (String.eqb s "")
  | JsSymbol _ | JsError _ _ | JsObject _ | JsAsyncResult _ => true
  end.

(** [x == null] (IsLooselyEqual against null, ECMA-262, 7.2.13): true for
    [null] and [undefined] and for nothing else; no coercion applies. *)
Definition looselyEqualsNull (v : JsValue) : bool :=
  match v with
  | JsNull | JsUndefined => true
  | _ => false
  end.

(** How a computation ends. *)
Inductive Outcome (T : Type) :=
| Return (v : T)
| Raise (exn : JsValue)
| Diverge.
Arguments Return {T} v.
Arguments Raise {T} exn.
Arguments Diverge {T}.

Definition string_of_Z (z : Z) : string := NilZero.string_of_int (Z.to_int z).

(** A number is a double: [Finite z] is the number the literal [z]
    denotes, the double nearest to [z].  [nearest_double n], for [n > 0],
    is that double as an integer: [n] kept to 53 significant bits, a tie
    going to the even one.  From [2 ^ 1024] on it is infinite. *)
Definition nearest_double (n : Z) : Z :=
  let shift := (Z.log2 n - 52)%Z in
  if (shift <=? 0)%Z then n
  else
    let q := Z.shiftr n shift in
    let r := (n - Z.shiftl q shift)%Z in
    let half := Z.shiftl 1 (shift - 1) in
    let q1 :=
      if (half <? r)%Z || ((r =? half)%Z && Z.odd q) then (q + 1)%Z else q in
    Z.shiftl q1 shift.

(** The digits of Number::toString (ECMA-262, 6.1.6.1.20) for the double
    [v > 0] of [D] decimal digits: the [s] of [k] digits, [k] as small as
    possible, with [s * 10 ^ (D - k)] a literal of [v]; of two such the one
    closer to [v], and of two as close the even one.  The result is [s]
    and the exponent [D - k]. *)
Definition digits_at (v D k : Z) : option (Z * Z) :=
  let p := (D - k)%Z in
  let lo := (v / 10 ^ p)%Z in
  let hi := (lo + 1)%Z in
  let ok_lo := (0 <? lo)%Z && (nearest_double (lo * 10 ^ p) =? v)%Z in
  let ok_hi := (nearest_double (hi * 10 ^ p) =? v)%Z in
  let d_lo := (v - lo * 10 ^ p)%Z in
  let d_hi := (hi * 10 ^ p - v)%Z in
  if ok_lo && ok_hi then
    if (d_lo <? d_hi)%Z then Some (lo, p)
    else if (d_hi <? d_lo)%Z then Some (hi, p)
    else if Z.even lo then Some (lo, p) else Some (hi, p)
  else if ok_lo then Some (lo, p)
  else if ok_hi then Some (hi, p)
  else None.

Fixpoint shortest_digits (fuel : nat) (v D k : Z) : Z * Z :=
  match fuel with
  | O => (v, 0%Z)
  | S fuel =>
      if (D <? k)%Z then (v, 0%Z)
      else
        match digits_at v D k with
        | Some sp => sp
        | None => shortest_digits fuel v D (k + 1)
        end
  end.

(** [s * 10 ^ p] with the zeros at the end of [s] moved to the exponent. *)
Fixpoint strip_zeros (fuel : nat) (s p : Z) : Z * Z :=
  match fuel with
  | O => (s, p)
  | S fuel =>
      if (0 <? s)%Z && (s mod 10 =? 0)%Z
      then strip_zeros fuel (s / 10) (p + 1)
      else (s, p)
  end.

Fixpoint zeros (n : nat) : string :=
  match n with
  | O => ""
  | S n => "0" +:+ zeros n
  end.

(** Number::toString of the double [v > 0]: with [n] the number of digits
    before the decimal point, the digits followed by zeros when [n <= 21],
    and the exponent form [d.ddde+x] beyond. *)
Definition string_of_double (v : Z) : string :=
  let D := Z.of_nat (String.length (string_of_Z v)) in
  let '(s0, p0) := shortest_digits 17 v D 1 in
  let '(s, p) := strip_zeros 400 s0 p0 in
  let ds := string_of_Z s in
  let n := (Z.of_nat (String.length ds) + p)%Z in
  if (n <=? 21)%Z then ds +:+ zeros (Z.to_nat p)
  else
    match ds with
    | String d "" => String d "" +:+ "e+" +:+ string_of_Z (n - 1)
    | String d rest => String d "" +:+ "." +:+ rest +:+ "e+" +:+ string_of_Z (n - 1)
    | "" => ""
    end.

(** Number::toString of [Finite z]. *)
Definition string_of_number (z : Z) : string :=
  if (z =? 0)%Z then "0"
  else
    let v := nearest_double (Z.abs z) in
    let body := if (2 ^ 1024 <=? v)%Z then "Infinity" else string_of_double v in
    if (z <? 0)%Z then "-" +:+ body else body.

(** An own property of the name [key]. *)
Definition has_own (key : string) (props : list (string * JsValue)) : bool :=
  existsb (λ kv, String.eqb kv.1 key) props.

(** [ToString] (ECMA-262, 7.1.17), the conversion a template literal
    [`${x}`] applies.  A Symbol cannot be converted.  An object is
    converted by its [toString] method: that of [Error.prototype] for an
    [Error], that of [Object.prototype] for an [AsyncResult] and for an
    ordinary object, unless the object has an own property [toString]: no
    value of the universe is a function, so neither that property nor
    what [valueOf] gives converts the object, which is a TypeError. *)
Definition ToString (v : JsValue) : Outcome string :=
  match v with
  | JsUndefined => Return "undefined"
  | JsNull => Return "null"
  | JsBool true => Return "true"
  | JsBool false => Return "false"
  | JsNumber NaN => Return "NaN"
  | JsNumber NegZero => Return "0"
  | JsNumber (Finite z) => Return (string_of_number z)
  | JsString s => Return s
  | JsSymbol _ => Raise (TypeError "Cannot convert a Symbol value to a string")
  | JsError name message =>
      Return (if String.eqb message "" then name
              else if String.eqb name "" then message
              else name +:+ ": " +:+ message)
  | JsObject props =>
      if has_own "toString" props
      then Raise (TypeError "Cannot convert object to primitive value")
      else Return "[object Object]"
  | JsAsyncResult _ => Return "[object Object]"
  end.

(** ** The tagged union and promises *)

(** [ResultData<E, A>]: [{ _tag: 'Ok', value }] or [{ _tag: 'Err', error }]. *)
Inductive ResultData :=
| Ok (value : JsValue)
| Err (error : JsValue).

(** A promise, by the way it settles. *)
Inductive Promise (T : Type) :=
| Fulfilled (v : T)
| Rejected (reason : JsValue)
| Pending.
Arguments Fulfilled {T} v.
Arguments Rejected {T} reason.
Arguments Pending {T}.

(** A parameter of type [T | Promise<T>]. *)
Inductive Awaitable :=
| Now (v : JsValue)
| Later (p : Promise JsValue).

(** [Promise.resolve(x)]. *)
Definition Promise_resolve (x : Awaitable) : Promise JsValue :=
  match x with
  | Now v => Fulfilled v
  | Later p => p
  end.

(** The field [resolvedData: ResultData<E, A> | null]. *)
Inductive Slot :=
| SlotNull
| SlotData (d : ResultData).

(** The runtime value of the tagged union and of the field. *)
Definition js_of_data (d : ResultData) : JsValue :=
  match d with
  | Ok value => JsObject [("_tag", JsString "Ok"); ("value", value)]
  | Err error => JsObject [("_tag", JsString "Err"); ("error", error)]
  end.

Definition js_of_slot (s : Slot) : JsValue :=
  match s with
  | SlotNull => JsNull
  | SlotData d => js_of_data d
  end.

(** An [AsyncResult] object: the constructor's [promise], the private
    [resolvedData], and a ghost counter of the executions of
    [await this.promise]. *)
Record AsyncResultObject := mkAsyncResult {
  promise : Promise ResultData;
  resolvedData : Slot;
  awaits : nat
}.

(** ** Computations *)

Record World := mkWorld {
  heap : list AsyncResultObject;
  trace : list JsValue
}.

Definition M (T : Type) : Type := World → Outcome T * World.

#[global] Instance M_ret : MRet M := λ T (v : T) w, (Return v, w).

#[global] Instance M_bind : MBind M := λ A B (k : A → M B) (m : M A) w,
  match m w with
  | (Return v, w1) => k v w1
  | (Raise exn, w1) => (Raise exn, w1)
  | (Diverge, w1) => (Diverge, w1)
  end.

#[global] Instance M_fmap : FMap M := λ A B (f : A → B) (m : M A),
  x ← m; mret (f x).

(** [throw exn]. *)
Definition raise {T} (exn : JsValue) : M T := λ w, (Raise exn, w).

(** A pure step that may raise. *)
Definition lift {T} (o : Outcome T) : M T := λ w, (o, w).

(** [await p]. *)
Definition await {T} (p : Promise T) : M T :=
  match p with
  | Fulfilled v => mret v
  | Rejected reason => raise reason
  | Pending => λ w, (Diverge, w)
  end.

(** The caller's functions may write to the log, which makes their
    invocations observable. *)
Definition log (v : JsValue) : M () :=
  λ w, (Return (), mkWorld (heap w) (trace w ++ [v])).

(** [spy f] is [f] recording each of its invocations. *)
Definition spy {A B} (f : A → M B) : A → M B :=
  λ x, log (JsString "called") ≫= λ _, f x.

(** What is asked of the caller's functions: [never_raises f] when no call
    of [f] raises, [returns f] when every call of [f] returns. *)
Definition never_raises {A B} (f : A → M B) : Prop :=
  ∀ x w exn, (f x w).1 ≠ Raise exn.

Definition returns {A B} (f : A → M B) : Prop :=
  ∀ x w, ∃ y w1, f x w = (Return y, w1).

(** ** Result.ts *)

Module Result.

(** [class Result<E, A> { constructor(private readonly data) }] *)
Record t := new { data : ResultData }.

Definition ok (value : JsValue) : t := new (Ok value).

Definition err (error : JsValue) : t := new (Err error).

Definition fromNullableWithError (error value : JsValue) : t :=
  if looselyEqualsNull value then err error else ok value.

Definition tryCatch (f : () → M JsValue) (onError : JsValue → M JsValue) : M t :=
  λ w,
    match f () w with
    | (Return value, w1) => (Return (ok value), w1)
    | (Raise error, w1) => (e ← onError error; mret (err e)) w1
    | (Diverge, w1) => (Diverge, w1)
    end.

Definition rMap (this : t) (f : JsValue → M JsValue) : M t :=
  match data this with
  | Ok value => b ← f value; mret (ok b)
  | Err error => mret (err error)
  end.

Definition rMapErr (this : t) (f : JsValue → M JsValue) : M t :=
  match data this with
  | Err error => e ← f error; mret (err e)
  | Ok value => mret (ok value)
  end.

Definition chain (this : t) (f : JsValue → M t) : M t :=
  match data this with
  | Ok value => f value
  | Err error => mret (err error)
  end.

Definition match_ (this : t) (onErr onOk : JsValue → M JsValue) : M JsValue :=
  match data this with
  | Ok value => onOk value
  | Err error => onErr error
  end.

Definition unwrap (this : t) : M JsValue :=
  match data this with
  | Ok value => mret value
  | Err error =>
      s ← lift (ToString error);
      raise (Error ("Called unwrap on an Err value: " +:+ s))
  end.

Definition unwrapOr (this : t) (defaultValue : JsValue) : JsValue :=
  match data this with
  | Ok value => value
  | Err _ => defaultValue
  end.

Definition unwrapErr (this : t) : M JsValue :=
  match data this with
  | Err error => mret error
  | Ok _ => raise (Error "Called unwrapErr on an Ok value")
  end.

Definition toPromise (this : t) : Promise JsValue :=
  match data this with
  | Ok value => Fulfilled value
  | Err error => Rejected error
  end.

Definition isOk (this : t) : bool :=
  match data this with Ok _ => true | Err _ => false end.

Definition isErr (this : t) : bool :=
  match data this with Err _ => true | Ok _ => false end.

(** The instance methods as data, and what a call gives back. *)
Inductive Method :=
| m_rMap (f : JsValue → M JsValue)
| m_rMapErr (f : JsValue → M JsValue)
| m_chain (f : JsValue → M t)
| m_match (onErr onOk : JsValue → M JsValue)
| m_unwrap
| m_unwrapOr (defaultValue : JsValue)
| m_unwrapErr
| m_toPromise
| m_isOk
| m_isErr.

Inductive Answer :=
| AResult (r : t)
| AValue (v : JsValue)
| APromise (p : Promise JsValue)
| ABool (b : bool).

Definition invoke (m : Method) (this : t) : M Answer :=
  match m with
  | m_rMap f => AResult <$> rMap this f
  | m_rMapErr f => AResult <$> rMapErr this f
  | m_chain f => AResult <$> chain this f
  | m_match onErr onOk => AValue <$> match_ this onErr onOk
  | m_unwrap => AValue <$> unwrap this
  | m_unwrapOr defaultValue => mret (AValue (unwrapOr this defaultValue))
  | m_unwrapErr => AValue <$> unwrapErr this
  | m_toPromise => mret (APromise (toPromise this))
  | m_isOk => mret (ABool (isOk this))
  | m_isErr => mret (ABool (isErr this))
  end.



End Result.

(** ** AsyncResult.ts *)

(** The store. *)
Definition alloc (o : AsyncResultObject) : M ref :=
  λ w, (Return (length (heap w)), mkWorld (heap w ++ [o]) (trace w)).

Definition load (this : ref) : M AsyncResultObject :=
  λ w, match heap w !! this with
       | Some o => (Return o, w)
       | None => (Raise (TypeError "not an object"), w)
       end.

Definition store (this : ref) (o : AsyncResultObject) : M () :=
  λ w, (Return (), mkWorld (<[this := o]> (heap w)) (trace w)).

Module AsyncResult.

(** [this.promise], [this.resolvedData], [this.resolvedData = s]. *)
Definition get_promise (this : ref) : M (Promise ResultData) :=
  o ← load this; mret (promise o).

Definition get_resolvedData (this : ref) : M Slot :=
  o ← load this; mret (resolvedData o).

Definition set_resolvedData (this : ref) (s : Slot) : M () :=
  o ← load this; store this (mkAsyncResult (promise o) s (awaits o)).

(** Ghost: one more execution of [await this.promise]. *)
Definition count_await (this : ref) : M () :=
  o ← load this;
  store this (mkAsyncResult (promise o) (resolvedData o) (S (awaits o))).

(** [new AsyncResult(promise)], with [resolvedData = null]. *)
Definition new (promise : Promise ResultData) : M JsValue :=
  this ← alloc (mkAsyncResult promise SlotNull 0);
  mret (JsAsyncResult this).

(** [getResolvedData] as its caller awaits it: the test of the field, the
    [await] and the assignment in one go.  [count_await] is ghost. *)
Definition getResolvedData (this : ref) : M Slot :=
  s ← get_resolvedData this;
  _ ← (if negb (ToBoolean (js_of_slot s)) then
         p ← get_promise this;
         _ ← count_await this;
         d ← await p;
         set_resolvedData this (SlotData d)
       else mret ());
  get_resolvedData this.

Definition ok (value : Awaitable) : M JsValue :=
  resolvedValue ← await (Promise_resolve value);
  new (Fulfilled (Ok resolvedValue)).

Definition err (error : Awaitable) : M JsValue :=
  resolvedError ← await (Promise_resolve error);
  new (Fulfilled (Err resolvedError)).

Definition fromNullableWithError (error : JsValue) (value : Awaitable) : M JsValue :=
  resolvedValue ← await (Promise_resolve value);
  if looselyEqualsNull resolvedValue
  then err (Now error)
  else ok (Now resolvedValue).

Definition tryCatch (f : () → M (Promise JsValue))
    (onError : JsValue → M JsValue) : M JsValue :=
  λ w,
    match (p ← f (); await p) w with
    | (Return value, w1) => ok (Now value) w1
    | (Raise error, w1) => (e ← onError error; err (Now e)) w1
    | (Diverge, w1) => (Diverge, w1)
    end.

Definition fromPromise (promise : Promise JsValue)
    (onError : JsValue → M JsValue) : M JsValue :=
  λ w,
    match await promise w with
    | (Return value, w1) => ok (Now value) w1
    | (Raise error, w1) => (e ← onError error; err (Now e)) w1
    | (Diverge, w1) => (Diverge, w1)
    end.

(** Reading [data._tag] of [null] is a TypeError. *)
Definition null_tag : JsValue :=
  TypeError "Cannot read properties of null (reading '_tag')".

Definition rMap (this : ref) (f : JsValue → M Awaitable) : M JsValue :=
  data ← getResolvedData this;
  match data with
  | SlotData (Ok value) =>
      r ← f value;
      b ← await (Promise_resolve r);
      ok (Now b)
  | SlotData (Err error) => err (Now error)
  | SlotNull => raise null_tag
  end.

Definition rMapErr (this : ref) (f : JsValue → M Awaitable) : M JsValue :=
  data ← getResolvedData this;
  match data with
  | SlotData (Err error) =>
      r ← f error;
      e ← await (Promise_resolve r);
      err (Now e)
  | SlotData (Ok value) => ok (Now value)
  | SlotNull => raise null_tag
  end.

(** [result instanceof AsyncResult]. *)
Definition instanceof_AsyncResult (v : JsValue) : bool :=
  match v with
  | JsAsyncResult _ => true
  | _ => false
  end.

Definition chain (this : ref) (f : JsValue → M Awaitable) : M JsValue :=
  data ← getResolvedData this;
  match data with
  | SlotData (Ok value) =>
      r ← f value;
      result ← await (Promise_resolve r);
      if instanceof_AsyncResult result
      then mret result
      else ok (Now result)
  | SlotData (Err error) => err (Now error)
  | SlotNull => raise null_tag
  end.

Definition match_ (this : ref) (onErr onOk : JsValue → M Awaitable) : M JsValue :=
  data ← getResolvedData this;
  match data with
  | SlotData (Ok value) => r ← onOk value; await (Promise_resolve r)
  | SlotData (Err error) => r ← onErr error; await (Promise_resolve r)
  | SlotNull => raise null_tag
  end.

Definition unwrap (this : ref) : M JsValue :=
  data ← getResolvedData this;
  match data with
  | SlotData (Ok value) => mret value
  | SlotData (Err error) =>
      s ← lift (ToString error);
      raise (Error ("Called unwrap on an Err value: " +:+ s))
  | SlotNull => raise null_tag
  end.

Definition unwrapOr (this : ref) (defaultValue : JsValue) : M JsValue :=
  data ← getResolvedData this;
  match data with
  | SlotData (Ok value) => mret value
  | SlotData (Err _) => mret defaultValue
  | SlotNull => raise null_tag
  end.

Definition unwrapErr (this : ref) : M JsValue :=
  data ← getResolvedData this;
  match data with
  | SlotData (Err error) => mret error
  | SlotData (Ok _) => raise (Error "Called unwrapErr on an Ok value")
  | SlotNull => raise null_tag
  end.

Definition toPromise (this : ref) : M JsValue :=
  data ← getResolvedData this;
  match data with
  | SlotData (Ok value) => mret value
  | SlotData (Err error) => raise error
  | SlotNull => raise null_tag
  end.

Definition isOk (this : ref) : M JsValue :=
  data ← getResolvedData this;
  match data with
  | SlotData (Ok _) => mret (JsBool true)
  | SlotData (Err _) => mret (JsBool false)
  | SlotNull => raise null_tag
  end.

Definition isErr (this : ref) : M JsValue :=
  data ← getResolvedData this;
  match data with
  | SlotData (Err _) => mret (JsBool true)
  | SlotData (Ok _) => mret (JsBool false)
  | SlotNull => raise null_tag
  end.

(** Calling an [async] function without awaiting it: the caller gets
    the promise. *)
Definition async_call {T} (m : M T) : M (Promise T) :=
  λ w,
    match m w with
    | (Return v, w1) => (Return (Fulfilled v), w1)
    | (Raise exn, w1) => (Return (Rejected exn), w1)
    | (Diverge, w1) => (Return Pending, w1)
    end.

(** The instance methods and the factories as data. *)
Inductive Method :=
| m_rMap (f : JsValue → M Awaitable)
| m_rMapErr (f : JsValue → M Awaitable)
| m_chain (f : JsValue → M Awaitable)
| m_match (onErr onOk : JsValue → M Awaitable)
| m_unwrap
| m_unwrapOr (defaultValue : JsValue)
| m_unwrapErr
| m_toPromise
| m_isOk
| m_isErr.

Definition invoke (m : Method) (this : ref) : M JsValue :=
  match m with
  | m_rMap f => rMap this f
  | m_rMapErr f => rMapErr this f
  | m_chain f => chain this f
  | m_match onErr onOk => match_ this onErr onOk
  | m_unwrap => unwrap this
  | m_unwrapOr defaultValue => unwrapOr this defaultValue
  | m_unwrapErr => unwrapErr this
  | m_toPromise => toPromise this
  | m_isOk => isOk this
  | m_isErr => isErr this
  end.

Inductive Factory :=
| f_ok (value : Awaitable)
| f_err (error : Awaitable)
| f_fromNullableWithError (error : JsValue) (value : Awaitable)
| f_tryCatch (f : () → M (Promise JsValue)) (onError : JsValue → M JsValue)
| f_fromPromise (promise : Promise JsValue) (onError : JsValue → M JsValue).

Definition construct (c : Factory) : M JsValue :=
  match c with
  | f_ok value => ok value
  | f_err error => err error
  | f_fromNullableWithError error value => fromNullableWithError error value
  | f_tryCatch f onError => tryCatch f onError
  | f_fromPromise promise onError => fromPromise promise onError
  end.

(** One call after the other on the same object, each run to
    completion; the caller is free to ignore how a call ended. *)
Definition invoke_all (ms : list Method) (this : ref) (w : World) : World :=
  foldl (λ w m, (invoke m this w).2) w ms.

(** *** Calls that overlap

    Every method begins with [await this.getResolvedData()], and
    [getResolvedData] runs up to its [await this.promise] as soon as it is
    called: [Enter] is that part, the test of the field included, and
    [Resume] is the rest, the assignment and the [return], run when the
    awaited promise has settled.  Calls on one object that are started
    before an earlier one was resumed are traced by [step]: [parked]
    counts the calls suspended at the [await], [returned] lists what the
    completed calls returned. *)
Record Sched := mkSched {
  object : AsyncResultObject;
  parked : nat;
  returned : list Slot
}.

Inductive Event :=
| Enter
| Resume.

Definition enter (s : Sched) : Sched :=
  let o := object s in
  if negb (ToBoolean (js_of_slot (resolvedData o)))
  then mkSched (mkAsyncResult (promise o) (resolvedData o) (S (awaits o)))
               (S (parked s)) (returned s)
  else mkSched o (parked s) (returned s ++ [resolvedData o]).

Definition resume (s : Sched) : Sched :=
  let o := object s in
  match parked s with
  | 0 => s
  | S n =>
      match promise o with
      | Fulfilled d =>
          mkSched (mkAsyncResult (promise o) (SlotData d) (awaits o))
                  n (returned s ++ [SlotData d])
      | Rejected _ => mkSched o n (returned s)
      | Pending => s
      end
  end.

Definition step (s : Sched) (e : Event) : Sched :=
  match e with
  | Enter => enter s
  | Resume => resume s
  end.

Definition run (evs : list Event) (s : Sched) : Sched := foldl step s evs.

Definition idle (o : AsyncResultObject) : Sched := mkSched o 0 [].

(** What holds of the object and of the values returned so far, however
    the calls on an object with the promise [p] overlap. *)
Definition consistent (p : Promise ResultData) (s : Sched) : Prop :=
  promise (object s) = p
  ∧ (resolvedData (object s) = SlotNull
     ∨ ∃ d, p = Fulfilled d ∧ resolvedData (object s) = SlotData d)
  ∧ (∀ x, x ∈ returned s →
       ∃ d, p = Fulfilled d ∧ x = SlotData d
            ∧ resolvedData (object s) = SlotData d).

(** What a call run to completion does to the object. *)
Definition memoize (o : AsyncResultObject) : AsyncResultObject :=
  object (run [Enter; Resume] (idle o)).

(** How a call run to completion ends, from the state of the object. *)
Definition resolved (o : AsyncResultObject) : Outcome Slot :=
  match resolvedData o with
  | SlotData d => Return (SlotData d)
  | SlotNull =>
      match promise o with
      | Fulfilled d => Return (SlotData d)
      | Rejected reason => Raise reason
      | Pending => Diverge
      end
  end.

(** The world once the object at [this] went through such a call. *)
Definition memo (this : ref) (o : AsyncResultObject) (w : World) : World :=
  mkWorld (<[this := memoize o]> (heap w)) (trace w).

(** *** Vocabulary of the statements *)

(** A new object, as the constructor leaves it. *)
Definition fresh (p : Promise ResultData) : AsyncResultObject :=
  mkAsyncResult p SlotNull 0.

(** The world after [new AsyncResult(p)]. *)
Definition extend (w : World) (p : Promise ResultData) : World :=
  mkWorld (heap w ++ [fresh p]) (trace w).

(** [r] is a new object of the store of [w], with a fulfilled promise. *)
Definition made (r : JsValue) (w : World) : Prop :=
  ∃ this d, r = JsAsyncResult this ∧ heap w !! this = Some (fresh (Fulfilled d)).

(** The object holds [d]: its promise fulfils with [d], and the field is
    empty or has [d].  Every state of an object made by a factory is
    such. *)
Definition holds (o : AsyncResultObject) (d : ResultData) : Prop :=
  promise o = Fulfilled d
  ∧ (resolvedData o = SlotNull ∨ resolvedData o = SlotData d).

(** [v.m(...)]: the method [m] of the object the value [v] refers to. *)
Definition call (v : JsValue) (m : Method) : M JsValue :=
  match v with
  | JsAsyncResult this => invoke m this
  | _ => raise (TypeError "not a function")
  end.

(** [await f(x)]. *)
Definition awaited (f : JsValue → M Awaitable) (x : JsValue) : M JsValue :=
  r ← f x; await (Promise_resolve r).

(** A property of every function handed to a call. *)
Definition callbacks (P : (JsValue → M Awaitable) → Prop) (m : Method) : Prop :=
  match m with
  | m_rMap f | m_rMapErr f | m_chain f => P f
  | m_match onErr onOk => P onErr ∧ P onOk
  | _ => True
  end.

(** The three calls that reject by themselves. *)
Definition rejecting (m : Method) (d : ResultData) : bool :=
  match m, d with
  | m_unwrap, Err _ | m_unwrapErr, Ok _ | m_toPromise, Err _ => true
  | _, _ => false
  end.

(** The fields of an object are private: code outside the class changes
    an object only through its methods.  Whatever the calls and however
    they overlap, the promise stays, the field keeps its value or takes
    the value the promise fulfils with, and an object whose field is set
    does not change any more. *)
Definition evolves (o o' : AsyncResultObject) : Prop :=
  promise o' = promise o
  ∧ (∀ d, resolvedData o = SlotData d → o' = o)
  ∧ (resolvedData o' = resolvedData o
     ∨ ∃ d, promise o = Fulfilled d ∧ resolvedData o' = SlotData d).

Definition heap_evolves (h h' : list AsyncResultObject) : Prop :=
  ∀ this o, h !! this = Some o → ∃ o', h' !! this = Some o' ∧ evolves o o'.

Definition evolving {T} (m : M T) : Prop :=
  ∀ w, heap_evolves (heap w) (heap (m w).2).

Definition respectful (f : JsValue → M Awaitable) : Prop :=
  ∀ x, evolving (f x).

(** The calls started in a trace of overlapping calls. *)
Fixpoint entered (evs : list Event) : nat :=
  match evs with
  | [] => 0
  | Enter :: evs => S (entered evs)
  | Resume :: evs => entered evs
  end.

(** [async x => (await f(x)).chain(g)]. *)
Definition then_chain (f g : JsValue → M Awaitable) : JsValue → M Awaitable :=
  λ x, Later <$> async_call (c ← awaited f x; call c (m_chain g)).

(** The methods that take no function. *)
Definition accessor (m : Method) : bool :=
  match m with
  | m_unwrap | m_unwrapOr _ | m_unwrapErr | m_toPromise | m_isOk | m_isErr => true
  | _ => false
  end.

End AsyncResult.

(** ** The values and functions of the examples *)

Definition start : World := mkWorld [] [].

Definition num (z : Z) : JsValue := JsNumber (Finite z).

(** [x * n] and [x + n], on the integers. *)
Definition times (n : Z) (x : JsValue) : JsValue :=
  match x with
  | JsNumber (Finite z) => JsNumber (Finite (z * n))
  | _ => JsNumber NaN
  end.

Definition plus (n : Z) (x : JsValue) : JsValue :=
  match x with
  | JsNumber (Finite z) => JsNumber (Finite (z + n))
  | _ => JsNumber NaN
  end.

(** [e.message]. *)
Definition message_of (e : JsValue) : JsValue :=
  match e with
  | JsError _ message => JsString message
  | _ => JsUndefined
  end.

(** The world after [await AsyncResult.ok(5)] and after
    [await AsyncResult.err("boom")]. *)
Definition w_ok : World := (AsyncResult.ok (Now (num 5)) start).2.
Definition w_err : World := (AsyncResult.err (Now (JsString "boom")) start).2.

(** * Properties *)

(** Unfolding the monad of computations. *)
Ltac unfold_M :=
  unfold fmap, M_fmap, mbind, M_bind, mret, M_ret, raise, lift in *.

(** ** Result: the algebra of the combinators *)

Section ResultLaws.

Import Result.

Implicit Types (r : Result.t) (v e c : JsValue) (w : World).

(** C3. Chain is associative: [r.chain(f).chain(g)] and
    [r.chain(x => f(x).chain(g))] are the same computation, for a
    success and for a failure, whatever [f] and [g] do. *)
Theorem chain_associative r (f g : JsValue → M Result.t) :
  (chain r f ≫= λ r1, chain r1 g) = chain r (λ x, f x ≫= λ r1, chain r1 g).
Proof. destruct r as [[value|error]]; reflexivity. Qed.

(** C4. Functor law: [ok(v).map(f).unwrap()] is [f(v)], with the effects
    and the outcome of [f]; [err(e).map(f).unwrapErr()] returns [e] and
    leaves the world as it was for every [f], so [f] was not invoked. *)
Theorem rMap_functor_law v e (f : JsValue → M JsValue) w :
  (rMap (ok v) f ≫= unwrap) w = f v w
  ∧ (rMap (err e) f ≫= unwrapErr) w = (Return e, w).
Proof.
  split; [|reflexivity].
  unfold rMap; simpl. unfold_M. by destruct (f v w) as [[b|exn|] w1].
Qed.

(** A function that records its invocations has recorded none after
    [err(e).map(f)]. *)
Lemma rMap_err_not_invoked e (f : JsValue → M JsValue) w :
  trace (rMap (err e) (spy f) w).2 = trace w.
Proof. reflexivity. Qed.

(** C5. Short-circuit: [err(e).chain(f)] is the computation that returns
    [err(e)] and does nothing else, for every [f]: [f] is not invoked
    and the failure comes back with its error unchanged. *)
Theorem chain_err_short_circuit e (f : JsValue → M Result.t) :
  chain (err e) f = mret (err e).
Proof. reflexivity. Qed.

Lemma chain_err_not_invoked e (f : JsValue → M Result.t) w :
  trace (chain (err e) (spy f) w).2 = trace w.
Proof. reflexivity. Qed.

(** C6. [fromNullableWithError(e, null)] and
    [fromNullableWithError(e, undefined)] are [Failure(e)]; every other
    value [v], the falsy ones included, gives [Success(v)]: the test is
    [v == null], which holds of [null] and [undefined] only. *)
Theorem fromNullableWithError_spec e :
  fromNullableWithError e JsNull = err e
  ∧ fromNullableWithError e JsUndefined = err e
  ∧ (∀ v, v ≠ JsNull → v ≠ JsUndefined → fromNullableWithError e v = ok v)
  ∧ fromNullableWithError e (JsNumber (Finite 0)) = ok (JsNumber (Finite 0))
  ∧ fromNullableWithError e (JsString "") = ok (JsString "")
  ∧ fromNullableWithError e (JsBool false) = ok (JsBool false)
  ∧ fromNullableWithError e (JsNumber NaN) = ok (JsNumber NaN)
  ∧ (∀ v, looselyEqualsNull v = true ↔ v = JsNull ∨ v = JsUndefined).
Proof.
  repeat split; try reflexivity.
  - intros v Hnull Hundef. by destruct v.
  - destruct v; simpl; intros; (discriminate || auto).
  - by intros [-> | ->].
Qed.

(** C7. [tryCatch(f, onError)]: when [f] returns [v] the result is
    [Success(v)], whatever [onError] is, so [onError] is not invoked;
    when [f] raises [c], and [onError(c)] returns [e'], the result is
    [Failure(e')] and the world is the one [onError] left: the raised
    value was handed to [onError] once. *)
Theorem tryCatch_spec (f : () → M JsValue) (onError : JsValue → M JsValue)
    w w1 :
  (∀ v, f () w = (Return v, w1) →
     tryCatch f onError w = (Return (ok v), w1))
  ∧ (∀ c e' w2, f () w = (Raise c, w1) →
     onError c w1 = (Return e', w2) →
     tryCatch f onError w = (Return (err e'), w2)).
Proof.
  split.
  - intros v Hf. unfold tryCatch. by rewrite Hf.
  - intros c e' w2 Hf Hon. unfold tryCatch. rewrite Hf. unfold_M.
    by rewrite Hon.
Qed.

End ResultLaws.

(** ** AsyncResult: the memoised resolution *)

Section Memo.

Import AsyncResult.

Implicit Types (o : AsyncResultObject) (d : ResultData) (w : World)
  (this : ref) (s : Sched).

(** The tagged union is an object, and objects are truthy. *)
Lemma ToBoolean_data d : ToBoolean (js_of_data d) = true.
Proof. by destruct d. Qed.


Lemma memoize_populated o d : resolvedData o = SlotData d → memoize o = o.
Proof.
  intros Hs. unfold memoize, run, idle; simpl. unfold enter; simpl.
  rewrite Hs; simpl. by rewrite ToBoolean_data.
Qed.

Lemma memoize_empty o :
  resolvedData o = SlotNull →
  memoize o =
    mkAsyncResult (promise o)
      (match promise o with Fulfilled d => SlotData d | _ => SlotNull end)
      (S (awaits o)).
Proof.
  intros Hs. unfold memoize, run, idle; simpl. unfold enter; simpl.
  rewrite Hs; simpl. unfold resume; simpl. by destruct (promise o).
Qed.

Lemma memoize_promise o : promise (memoize o) = promise o.
Proof.
  destruct (resolvedData o) as [|d] eqn:Hs.
  - by rewrite memoize_empty.
  - by rewrite (memoize_populated o d).
Qed.

Lemma world_insert_id this o w :
  heap w !! this = Some o →
  mkWorld (<[this := o]> (heap w)) (trace w) = w.
Proof. intros H. destruct w as [h t]; simpl in *. by rewrite list_insert_id. Qed.

(** Running a bind, by the outcome of its first computation. *)
Lemma bind_Return {A B} (m : M A) (k : A → M B) w v w1 :
  m w = (Return v, w1) → (m ≫= k) w = k v w1.
Proof. intros H. unfold_M. by rewrite H. Qed.

Lemma bind_Raise {A B} (m : M A) (k : A → M B) w exn w1 :
  m w = (Raise exn, w1) → (m ≫= k) w = (Raise exn, w1).
Proof. intros H. unfold_M. by rewrite H. Qed.

Lemma bind_Diverge {A B} (m : M A) (k : A → M B) w w1 :
  m w = (Diverge, w1) → (m ≫= k) w = (Diverge, w1).
Proof. intros H. unfold_M. by rewrite H. Qed.

Lemma load_run this o w : heap w !! this = Some o → load this w = (Return o, w).
Proof. intros H. unfold load. by rewrite H. Qed.

Lemma get_resolvedData_run this o w :
  heap w !! this = Some o →
  get_resolvedData this w = (Return (resolvedData o), w).
Proof. intros H. unfold get_resolvedData. by rewrite (bind_Return _ _ _ _ _ (load_run _ _ _ H)). Qed.

Lemma get_promise_run this o w :
  heap w !! this = Some o → get_promise this w = (Return (promise o), w).
Proof. intros H. unfold get_promise. by rewrite (bind_Return _ _ _ _ _ (load_run _ _ _ H)). Qed.

Lemma count_await_run this o w :
  heap w !! this = Some o →
  count_await this w =
    (Return (),
     mkWorld (<[this := mkAsyncResult (promise o) (resolvedData o) (S (awaits o))]> (heap w))
             (trace w)).
Proof. intros H. unfold count_await. by rewrite (bind_Return _ _ _ _ _ (load_run _ _ _ H)). Qed.

Lemma set_resolvedData_run this o x w :
  heap w !! this = Some o →
  set_resolvedData this x w =
    (Return (),
     mkWorld (<[this := mkAsyncResult (promise o) x (awaits o)]> (heap w)) (trace w)).
Proof. intros H. unfold set_resolvedData. by rewrite (bind_Return _ _ _ _ _ (load_run _ _ _ H)). Qed.

(** [getResolvedData], run to completion, is one [Enter] followed by its
    [Resume]. *)
Lemma getResolvedData_spec this o w :
  heap w !! this = Some o →
  getResolvedData this w = (resolved o, memo this o w).
Proof.
  intros Hl. unfold getResolvedData, resolved, memo.
  rewrite (bind_Return _ _ _ _ _ (get_resolvedData_run _ _ _ Hl)).
  destruct (resolvedData o) as [|d] eqn:Hs; simpl.
  - rewrite (memoize_empty o Hs).
    assert (Hlt : this < length (heap w)) by (by eapply lookup_lt_Some).
    set (o1 := mkAsyncResult (promise o) (resolvedData o) (S (awaits o))).
    set (w1 := mkWorld (<[this := o1]> (heap w)) (trace w)).
    assert (Hl1 : heap w1 !! this = Some o1)
      by (by apply list_lookup_insert_eq).
    assert (Hc : (p ← get_promise this; _ ← count_await this; d ← await p;
                  set_resolvedData this (SlotData d)) w
                 = (d ← await (promise o); set_resolvedData this (SlotData d)) w1).
    { rewrite (bind_Return _ _ _ _ _ (get_promise_run _ _ _ Hl)).
      by rewrite (bind_Return _ _ _ _ _ (count_await_run _ _ _ Hl)). }
    destruct (promise o) as [d|reason|] eqn:Hp.
    + erewrite bind_Return; last first.
      { rewrite Hc. erewrite bind_Return by reflexivity.
        by apply set_resolvedData_run. }
      erewrite get_resolvedData_run
        by (simpl; apply list_lookup_insert_eq; subst w1; simpl;
            by rewrite length_insert).
      subst w1 o1; simpl. by rewrite list_insert_insert_eq.
    + erewrite bind_Raise; [|rewrite Hc; by erewrite bind_Raise].
      subst w1 o1. by rewrite Hs.
    + erewrite bind_Diverge; [|rewrite Hc; by erewrite bind_Diverge].
      subst w1 o1. by rewrite Hs.
  - rewrite ToBoolean_data; simpl.
    erewrite bind_Return by reflexivity.
    rewrite (get_resolvedData_run _ _ _ Hl), Hs.
    rewrite (memoize_populated o d Hs). by rewrite world_insert_id.
Qed.

Lemma holds_resolved o d : holds o d → resolved o = Return (SlotData d).
Proof. intros [Hp [Hs|Hs]]; unfold resolved; by rewrite Hs, ?Hp. Qed.

Lemma holds_memoize o d : holds o d → holds (memoize o) d.
Proof.
  intros [Hp Hs]. split; [by rewrite memoize_promise|].
  destruct Hs as [Hs|Hs].
  - rewrite (memoize_empty o Hs), Hp. by right.
  - rewrite (memoize_populated o d Hs). by right.
Qed.

Lemma getResolvedData_holds this o d w :
  heap w !! this = Some o → holds o d →
  getResolvedData this w = (Return (SlotData d), memo this o w).
Proof.
  intros Hl Hh. by rewrite (getResolvedData_spec this o w Hl), (holds_resolved o d).
Qed.

End Memo.

(** ** AsyncResult: the methods *)

Section AsyncMethods.

Import AsyncResult.

Implicit Types (o : AsyncResultObject) (d : ResultData) (w : World)
  (this : ref) (v e : JsValue) (f : JsValue → M Awaitable).

(** C8. Asynchronous chain.  On a success, [f] is invoked with the value
    and its result awaited, in the world the resolution of the receiver
    left; an awaited result that is an [AsyncResult] is returned as it
    is, the same object and nothing else touched; any other awaited
    result is wrapped in a new successful [AsyncResult].  On a failure
    the outcome is a new [AsyncResult] holding the same error, the same
    for every [f]: [f] is not invoked. *)
Theorem async_chain_spec this o w f :
  heap w !! this = Some o →
  (∀ value result w1,
      holds o (Ok value) →
      awaited f value (memo this o w) = (Return result, w1) →
      chain this f w =
        if instanceof_AsyncResult result
        then (Return result, w1)
        else (Return (JsAsyncResult (length (heap w1))),
              extend w1 (Fulfilled (Ok result))))
  ∧ (∀ error,
      holds o (Err error) →
      chain this f w =
        (Return (JsAsyncResult (length (heap (memo this o w)))),
         extend (memo this o w) (Fulfilled (Err error)))).
Proof.
  intros Hl. split.
  - intros value result w1 Hh Hf. unfold chain.
    rewrite (bind_Return _ _ _ _ _ (getResolvedData_holds _ _ _ _ Hl Hh)).
    unfold awaited in Hf. revert Hf. unfold_M.
    destruct (f value (memo this o w)) as [[r|exn|] w2]; try discriminate.
    destruct (Promise_resolve r) as [x|reason|]; simpl; try discriminate.
    intros [= -> ->]. by destruct (instanceof_AsyncResult result).
  - intros error Hh. unfold chain.
    by rewrite (bind_Return _ _ _ _ _ (getResolvedData_holds _ _ _ _ Hl Hh)).
Qed.

Lemma new_run (p : Promise ResultData) w :
  new p w = (Return (JsAsyncResult (length (heap w))), extend w p).
Proof. reflexivity. Qed.

Lemma extend_lookup w (p : Promise ResultData) :
  heap (extend w p) !! length (heap w) = Some (fresh p).
Proof. simpl. by apply list_lookup_middle. Qed.

Lemma ok_made value w r w1 : ok value w = (Return r, w1) → made r w1.
Proof.
  unfold ok. destruct (Promise_resolve value) as [x|reason|]; simpl;
    unfold_M; try discriminate.
  rewrite new_run. intros [= <- <-]. eexists _, _. split; [done|].
  apply extend_lookup.
Qed.

Lemma err_made error w r w1 : err error w = (Return r, w1) → made r w1.
Proof.
  unfold err. destruct (Promise_resolve error) as [x|reason|]; simpl;
    unfold_M; try discriminate.
  rewrite new_run. intros [= <- <-]. eexists _, _. split; [done|].
  apply extend_lookup.
Qed.

Lemma handler_made (onError : JsValue → M JsValue) error w r w1 :
  (e ← onError error; err (Now e)) w = (Return r, w1) → made r w1.
Proof.
  unfold_M. destruct (onError error w) as [[x|exn|] w2]; try discriminate.
  apply err_made.
Qed.

Lemma construct_made c w r w1 : construct c w = (Return r, w1) → made r w1.
Proof.
  destruct c as [value|error|error value|g onError|p onError]; simpl.
  - apply ok_made.
  - apply err_made.
  - unfold fromNullableWithError.
    destruct (Promise_resolve value) as [x|reason|]; simpl; unfold_M;
      try discriminate.
    destruct (looselyEqualsNull x); [apply err_made | apply ok_made].
  - unfold tryCatch.
    destruct ((p ← g (); await p) w) as [[x|exn|] w2]; try discriminate.
    + apply ok_made.
    + apply handler_made.
  - unfold fromPromise.
    destruct (await p w) as [[x|exn|] w2]; try discriminate.
    + apply ok_made.
    + apply handler_made.
Qed.

Lemma fresh_holds d : holds (fresh (Fulfilled d)) d.
Proof. split; [done | by left]. Qed.

Lemma evolves_holds o o' d : evolves o o' → holds o d → holds o' d.
Proof.
  intros (Hp & Hkeep & Hs) [Hpd Hsd]. split; [congruence|].
  destruct Hs as [Hs | (d' & Hp' & Hs)]; [by rewrite Hs|].
  right. congruence.
Qed.

(** Awaiting the result of a function and going on. *)
Lemma bind_awaited {B} f x (k : JsValue → M B) w :
  (r ← f x; b ← await (Promise_resolve r); k b) w = (awaited f x ≫= k) w.
Proof.
  unfold awaited. unfold_M. by destruct (f x w) as [[r|exn|] w1].
Qed.

(** A method, once the receiver is resolved. *)
Ltac resolve_receiver Hl Hh :=
  erewrite bind_Return by (by eapply getResolvedData_holds; [apply Hl | apply Hh]);
  lazy beta iota.

Lemma invoke_never_rejects m this o d w :
  heap w !! this = Some o → holds o d → rejecting m d = false →
  callbacks (λ f, never_raises (awaited f)) m →
  ∀ exn, (invoke m this w).1 ≠ Raise exn.
Proof.
  intros Hl Hh Hr Hcb exn.
  destruct m as [f|f|f|onErr onOk| |dflt| | | |], d as [value|error];
    simpl in *; try discriminate;
    unfold rMap, rMapErr, chain, match_, unwrap, unwrapOr, unwrapErr,
      toPromise, isOk, isErr;
    resolve_receiver Hl Hh; try done.
  - rewrite bind_awaited.
    destruct (awaited f value (memo this o w)) as [[y|x|] w1] eqn:Hy.
    + by rewrite (bind_Return _ _ _ _ _ Hy).
    + exfalso. eapply (Hcb value). by rewrite Hy.
    + by rewrite (bind_Diverge _ _ _ _ Hy).
  - rewrite bind_awaited.
    destruct (awaited f error (memo this o w)) as [[y|x|] w1] eqn:Hy.
    + by rewrite (bind_Return _ _ _ _ _ Hy).
    + exfalso. eapply (Hcb error). by rewrite Hy.
    + by rewrite (bind_Diverge _ _ _ _ Hy).
  - rewrite bind_awaited.
    destruct (awaited f value (memo this o w)) as [[y|x|] w1] eqn:Hy.
    + rewrite (bind_Return _ _ _ _ _ Hy).
      by destruct (instanceof_AsyncResult y).
    + exfalso. eapply (Hcb value). by rewrite Hy.
    + by rewrite (bind_Diverge _ _ _ _ Hy).
  - apply (proj2 Hcb value).
  - apply (proj1 Hcb error).
Qed.

Lemma invoke_fulfils m this o d w :
  heap w !! this = Some o → holds o d → rejecting m d = false →
  callbacks (λ f, returns (awaited f)) m →
  ∃ v w1, invoke m this w = (Return v, w1).
Proof.
  intros Hl Hh Hr Hcb.
  destruct m as [f|f|f|onErr onOk| |dflt| | | |], d as [value|error];
    simpl in *; try discriminate;
    unfold rMap, rMapErr, chain, match_, unwrap, unwrapOr, unwrapErr,
      toPromise, isOk, isErr;
    resolve_receiver Hl Hh; try (by eexists _, _).
  - rewrite bind_awaited.
    destruct (Hcb value (memo this o w)) as (y & w1 & Hy).
    rewrite (bind_Return _ _ _ _ _ Hy). by eexists _, _.
  - rewrite bind_awaited.
    destruct (Hcb error (memo this o w)) as (y & w1 & Hy).
    rewrite (bind_Return _ _ _ _ _ Hy). by eexists _, _.
  - rewrite bind_awaited.
    destruct (Hcb value (memo this o w)) as (y & w1 & Hy).
    rewrite (bind_Return _ _ _ _ _ Hy).
    destruct (instanceof_AsyncResult y); by eexists _, _.
  - apply (proj2 Hcb value).
  - apply (proj1 Hcb error).
Qed.

(** C9. What a public factory returns is an object whose promise was
    fulfilled with the tagged union when the constructor got it.  On
    an object that holds [d], as every state of such an object does, a
    method other than [unwrap] on a failure, [unwrapErr] on a success and
    [toPromise] on a failure does not reject when the functions handed
    to it do not raise, and is fulfilled when their awaited calls
    return. *)
Theorem factory_objects_never_reject :
  (∀ c w r w1,
      construct c w = (Return r, w1) →
      ∃ this d, r = JsAsyncResult this
        ∧ heap w1 !! this = Some (fresh (Fulfilled d))
        ∧ ∀ o', evolves (fresh (Fulfilled d)) o' → holds o' d)
  ∧ (∀ m this o d w,
      heap w !! this = Some o → holds o d → rejecting m d = false →
      (callbacks (λ f, never_raises (awaited f)) m →
         ∀ exn, (invoke m this w).1 ≠ Raise exn)
      ∧ (callbacks (λ f, returns (awaited f)) m →
         ∃ v w1, invoke m this w = (Return v, w1))).
Proof.
  split.
  - intros c w r w1 Hc.
    destruct (construct_made c w r w1 Hc) as (this & d & -> & Hl).
    exists this, d. split_and!; [done..|].
    intros o' Hev. eapply evolves_holds; [done | apply fresh_holds].
  - intros m this o d w Hl Hh Hr. split.
    + by eapply invoke_never_rejects.
    + by eapply invoke_fulfils.
Qed.



End AsyncMethods.

(** ** AsyncResult: what calls do to the store *)

Create HintDb evolving.

Section Evolution.

Import AsyncResult.

Implicit Types (o : AsyncResultObject) (d : ResultData) (w : World)
  (this : ref) (h : list AsyncResultObject).

Lemma evolves_refl o : evolves o o.
Proof. split_and!; [done | done | by left]. Qed.

Lemma evolves_trans o1 o2 o3 : evolves o1 o2 → evolves o2 o3 → evolves o1 o3.
Proof.
  intros (Hp1 & Hk1 & Hs1) (Hp2 & Hk2 & Hs2). split_and!.
  - congruence.
  - intros d Hd. pose proof (Hk1 d Hd) as ->. by apply (Hk2 d).
  - destruct Hs2 as [Hs2 | (d & Hp & Hs2)].
    + rewrite Hs2. destruct Hs1 as [Hs1 | (d & Hp & Hs1)]; [by left|].
      right. by exists d.
    + right. exists d. split; [congruence | done].
Qed.

Lemma evolves_memoize o : evolves o (memoize o).
Proof.
  destruct (resolvedData o) as [|d] eqn:Hs.
  - rewrite (memoize_empty o Hs). split_and!; simpl.
    + done.
    + intros d Hd. congruence.
    + destruct (promise o) as [d| |]; [right; by exists d | by left..].
  - rewrite (memoize_populated o d Hs). apply evolves_refl.
Qed.

Lemma heap_evolves_refl h : heap_evolves h h.
Proof. intros this o Hl. exists o. split; [done | apply evolves_refl]. Qed.

Lemma heap_evolves_trans h1 h2 h3 :
  heap_evolves h1 h2 → heap_evolves h2 h3 → heap_evolves h1 h3.
Proof.
  intros H12 H23 this o Hl.
  destruct (H12 this o Hl) as (o2 & Hl2 & He2).
  destruct (H23 this o2 Hl2) as (o3 & Hl3 & He3).
  exists o3. split; [done | by eapply evolves_trans].
Qed.

Lemma heap_evolves_insert h this o o' :
  h !! this = Some o → evolves o o' → heap_evolves h (<[this := o']> h).
Proof.
  intros Hl He that x Hx. destruct (decide (this = that)) as [<-|Hne].
  - exists o'. split.
    + apply list_lookup_insert_eq. by eapply lookup_lt_Some.
    + by simplify_eq.
  - exists x. split; [by rewrite list_lookup_insert_ne | apply evolves_refl].
Qed.

Lemma heap_evolves_app h l : heap_evolves h (h ++ l).
Proof.
  intros this o Hl. exists o. split; [|apply evolves_refl].
  by apply lookup_app_l_Some.
Qed.

(** Computations that leave every object as some calls could have. *)
Lemma evolving_ret {T} (v : T) : evolving (mret v).
Proof. intros w. apply heap_evolves_refl. Qed.

Lemma evolving_raise {T} exn : evolving (raise (T := T) exn).
Proof. intros w. apply heap_evolves_refl. Qed.

Lemma evolving_lift {T} (x : Outcome T) : evolving (lift x).
Proof. intros w. apply heap_evolves_refl. Qed.

Lemma evolving_await {T} (p : Promise T) : evolving (await p).
Proof. intros w. destruct p; apply heap_evolves_refl. Qed.

Lemma evolving_bind {A B} (m : M A) (k : A → M B) :
  evolving m → (∀ x, evolving (k x)) → evolving (m ≫= k).
Proof.
  intros Hm Hk w. specialize (Hm w). unfold_M.
  destruct (m w) as [[x|exn|] w1]; simpl in *; try done.
  eapply heap_evolves_trans; [done | apply Hk].
Qed.

Lemma evolving_new p : evolving (new p).
Proof. intros w. rewrite new_run. apply heap_evolves_app. Qed.

Lemma evolving_getResolvedData this : evolving (getResolvedData this).
Proof.
  intros w. destruct (heap w !! this) as [o|] eqn:Hl.
  - rewrite (getResolvedData_spec this o w Hl). simpl.
    eapply heap_evolves_insert; [done | apply evolves_memoize].
  - unfold getResolvedData, get_resolvedData, load. unfold_M.
    rewrite Hl. apply heap_evolves_refl.
Qed.

Hint Resolve evolving_ret evolving_raise evolving_lift evolving_await
  evolving_new evolving_getResolvedData : evolving.

Ltac evolving :=
  repeat first
    [ progress eauto with evolving
    | apply evolving_bind; [|intros ?]
    | match goal with H : respectful ?f |- evolving (?f _) => apply H end
    | match goal with
      | |- evolving (match ?x with _ => _ end) => destruct x
      | |- evolving (if ?b then _ else _) => destruct b
      end ].

Lemma evolving_ok value : evolving (ok value).
Proof. unfold ok. evolving. Qed.

Lemma evolving_err error : evolving (err error).
Proof. unfold err. evolving. Qed.

Hint Resolve evolving_ok evolving_err : evolving.

(** A method is the resolution of its receiver followed by code that
    does not touch the receiver's fields. *)
Lemma invoke_split m this :
  ∃ k : Slot → M JsValue,
    invoke m this = getResolvedData this ≫= k
    ∧ (callbacks respectful m → ∀ data, evolving (k data)).
Proof.
  destruct m as [f|f|f|onErr onOk| |dflt| | | |]; simpl;
    (eexists; split; [reflexivity|]); intros Hcb data; simpl in Hcb;
    try destruct Hcb; lazy beta; evolving.
Qed.

Lemma evolving_invoke m this : callbacks respectful m → evolving (invoke m this).
Proof.
  intros Hcb. destruct (invoke_split m this) as (k & -> & Hk).
  apply evolving_bind; [apply evolving_getResolvedData | by apply Hk].
Qed.

Lemma evolving_invoke_all ms this w :
  Forall (callbacks respectful) ms →
  heap_evolves (heap w) (heap (invoke_all ms this w)).
Proof.
  intros Hms. revert w. induction Hms as [|m ms Hm Hms IH]; intros w.
  - apply heap_evolves_refl.
  - simpl. eapply heap_evolves_trans; [|apply IH].
    by apply evolving_invoke.
Qed.

(** Functions built from the library respect the store. *)
Lemma evolving_fmap {A B} (g : A → B) (m : M A) : evolving m → evolving (g <$> m).
Proof. intros Hm. unfold fmap, M_fmap. evolving. Qed.

Lemma evolving_async_call {T} (m : M T) : evolving m → evolving (async_call m).
Proof.
  intros Hm w. specialize (Hm w). unfold async_call.
  by destruct (m w) as [[x|exn|] w1].
Qed.

Lemma evolving_call v m : callbacks respectful m → evolving (call v m).
Proof.
  intros Hcb. destruct v; simpl; try apply evolving_raise.
  by apply evolving_invoke.
Qed.

(** After its first call the object is set for good. *)
Lemma first_call m this d w :
  heap w !! this = Some (fresh (Fulfilled d)) →
  callbacks respectful m →
  heap (invoke m this w).2 !! this = Some (mkAsyncResult (Fulfilled d) (SlotData d) 1).
Proof.
  intros Hl Hcb. destruct (invoke_split m this) as (k & -> & Hk).
  rewrite (bind_Return _ _ _ _ _
             (getResolvedData_holds _ _ _ _ Hl (fresh_holds d))).
  assert (Hm : heap (memo this (fresh (Fulfilled d)) w) !! this
               = Some (mkAsyncResult (Fulfilled d) (SlotData d) 1)).
  { simpl. apply list_lookup_insert_eq. by eapply lookup_lt_Some. }
  destruct (Hk Hcb (SlotData d) _ _ _ Hm) as (o' & Hl' & _ & Hkeep & _).
  by rewrite Hl', (Hkeep d).
Qed.

(** C2, for calls that do not overlap.  On an object whose promise
    fulfils, as made by the factories, any number of calls of any
    methods in any order, each run to completion before the next begins,
    execute [await this.promise] at most once: the first call does and
    stores the tagged union, and the object is the same after every
    later call, which therefore read the field. *)
Theorem sequential_calls_await_once ms this d w :
  heap w !! this = Some (fresh (Fulfilled d)) →
  Forall (callbacks respectful) ms →
  ∃ o', heap (invoke_all ms this w) !! this = Some o'
    ∧ awaits o' ≤ 1
    ∧ (ms ≠ [] → o' = mkAsyncResult (Fulfilled d) (SlotData d) 1).
Proof.
  intros Hl Hms. destruct Hms as [|m ms Hm Hms].
  - exists (fresh (Fulfilled d)). split_and!; [done | simpl; lia | done].
  - simpl.
    pose proof (first_call m this d w Hl Hm) as H1.
    destruct (evolving_invoke_all ms this _ Hms _ _ H1)
      as (o' & Hl' & _ & Hkeep & _).
    rewrite (Hkeep d eq_refl) in Hl'.
    eexists. split_and!; [done | simpl; lia | done].
Qed.

End Evolution.

(** ** AsyncResult: calls that overlap *)

Section Overlap.

Import AsyncResult.

Implicit Types (o : AsyncResultObject) (d : ResultData) (s : Sched)
  (p : Promise ResultData).






(** Once the field is set, no step changes the object. *)
Lemma step_populated p s e d :
  consistent p s → resolvedData (object s) = SlotData d →
  object (step s e) = object s.
Proof.
  intros (Hp & Hs & _) Hd. destruct e; simpl.
  - unfold enter. rewrite Hd; simpl. by rewrite ToBoolean_data.
  - unfold resume. destruct (parked s) as [|n]; [done|].
    destruct (promise (object s)) as [d'|reason|] eqn:Hpo; [|done..].
    simpl. destruct Hs as [Hs | (d0 & Hpd & Hs)]; [congruence|].
    assert (d' = d) as -> by congruence.
    destruct (object s) as [po so ao]; simpl in *. congruence.
Qed.

(** A step changes the object the way [evolves] says. *)
Lemma step_evolves p s e : consistent p s → evolves (object s) (object (step s e)).
Proof.
  intros Hc. destruct (resolvedData (object s)) as [|d] eqn:Hd.
  - destruct Hc as (Hp & _ & _). destruct e; simpl.
    + unfold enter. rewrite Hd; simpl. split_and!; simpl; [done | | by left].
      intros d Hd'. congruence.
    + unfold resume. destruct (parked s) as [|n]; [apply evolves_refl|].
      destruct (promise (object s)) as [d|reason|] eqn:Hpo;
        [|apply evolves_refl..].
      split_and!; simpl; [done | | right; by exists d].
      intros d' Hd'. congruence.
  - rewrite (step_populated p s e d Hc Hd). apply evolves_refl.
Qed.


End Overlap.

(** ** The scenarios of the specification *)

Section Scenarios.

(** [ok(42).map(x => x * 2).unwrap()] is [84]. *)
Example scenario_map_ok :
  (Result.rMap (Result.ok (num 42)) (λ x, mret (times 2 x)) ≫= Result.unwrap) start
  = (Return (num 84), start).
Proof. reflexivity. Qed.

(** [err("bad").map(x => x * 2).unwrapErr()] is ["bad"]. *)
Example scenario_map_err :
  (Result.rMap (Result.err (JsString "bad")) (λ x, mret (times 2 x))
   ≫= Result.unwrapErr) start
  = (Return (JsString "bad"), start).
Proof. reflexivity. Qed.

(** [fromNullableWithError("missing", null).unwrapErr()] is ["missing"]. *)
Example scenario_nullable :
  Result.unwrapErr (Result.fromNullableWithError (JsString "missing") JsNull) start
  = (Return (JsString "missing"), start).
Proof. reflexivity. Qed.

(** [tryCatch(() => { throw new Error("boom") }, e => e.message).unwrapErr()]
    is ["boom"]. *)
Example scenario_tryCatch :
  (Result.tryCatch (λ _, raise (Error "boom")) (λ e, mret (message_of e))
   ≫= Result.unwrapErr) start
  = (Return (JsString "boom"), start).
Proof. reflexivity. Qed.

(** [(await AsyncResult.ok(5)).chain(x => AsyncResult.ok(x + 1))], then
    [unwrap()], is [6]. *)
Example scenario_async_chain :
  (r ← AsyncResult.ok (Now (num 5));
   c ← AsyncResult.call r
         (AsyncResult.m_chain
            (λ x, Later <$> AsyncResult.async_call (AsyncResult.ok (Now (plus 1 x)))));
   AsyncResult.call c AsyncResult.m_unwrap) start
  = (Return (num 6),
     mkWorld [mkAsyncResult (Fulfilled (Ok (num 5))) (SlotData (Ok (num 5))) 1;
              mkAsyncResult (Fulfilled (Ok (num 6))) (SlotData (Ok (num 6))) 1]
             []).
Proof. reflexivity. Qed.

(** [(await AsyncResult.err("e")).toPromise()] rejects with ["e"]. *)
Example scenario_async_toPromise :
  (r ← AsyncResult.err (Now (JsString "e"));
   AsyncResult.call r AsyncResult.m_toPromise) start
  = (Raise (JsString "e"),
     mkWorld [mkAsyncResult (Fulfilled (Err (JsString "e")))
                (SlotData (Err (JsString "e"))) 1] []).
Proof. reflexivity. Qed.

(** The synchronous [toPromise] returns the rejected promise. *)
Example scenario_toPromise :
  Result.toPromise (Result.err (JsString "e")) = Rejected (JsString "e").
Proof. reflexivity. Qed.

(** The error of a failed [unwrap] carries the converted error. *)
Example scenario_unwrap_message :
  Result.unwrap (Result.err (num 404)) start
  = (Raise (Error "Called unwrap on an Err value: 404"), start).
Proof. reflexivity. Qed.

(** The conversion of numbers: plain digits up to 21 of them, the shortest
    digits that denote the double, the exponent form beyond. *)
Example ToString_numbers :
  ToString (num 404) = Return "404"
  ∧ ToString (num (-84)) = Return "-84"
  ∧ ToString (num (2 ^ 53 + 1)) = Return "9007199254740992"
  ∧ ToString (num (2 ^ 60)) = Return "1152921504606847000"
  ∧ ToString (num (10 ^ 20)) = Return "100000000000000000000"
  ∧ ToString (num (10 ^ 21)) = Return "1e+21"
  ∧ ToString (num (10 ^ 23)) = Return "1e+23"
  ∧ ToString (num 123456789012345678901234567890) = Return "1.2345678901234568e+29"
  ∧ ToString (num (2 ^ 1024)) = Return "Infinity".
Proof. vm_compute. by repeat split. Qed.

(** [unwrap] on a failure that carries [1e21]. *)
Example scenario_unwrap_large_number :
  Result.unwrap (Result.err (num (10 ^ 21))) start
  = (Raise (Error "Called unwrap on an Err value: 1e+21"), start).
Proof. vm_compute. reflexivity. Qed.

(** [unwrap] on a failure that carries [{ toString: 1 }]: the conversion
    raises, as it does for a Symbol; an object without that property is
    converted by [Object.prototype.toString]. *)
Example scenario_unwrap_object :
  Result.unwrap (Result.err (JsObject [("toString", num 1)])) start
  = (Raise (TypeError "Cannot convert object to primitive value"), start)
  ∧ Result.unwrap (Result.err (JsObject [("code", num 1)])) start
    = (Raise (Error "Called unwrap on an Err value: [object Object]"), start).
Proof. split; reflexivity. Qed.

End Scenarios.

(** ** Instances *)

Section Instances.

Import AsyncResult.

(** C6 on the falsy values. *)
Lemma fromNullableWithError_falsy :
  Result.fromNullableWithError (JsString "missing") (num 0) = Result.ok (num 0)
  ∧ Result.fromNullableWithError (JsString "missing") (JsString "")
    = Result.ok (JsString "")
  ∧ Result.fromNullableWithError (JsString "missing") (JsBool false)
    = Result.ok (JsBool false)
  ∧ Result.fromNullableWithError (JsString "missing") (JsNumber NaN)
    = Result.ok (JsNumber NaN).
Proof.
  split_and!;
    apply (proj1 (proj2 (proj2 (fromNullableWithError_spec (JsString "missing")))));
    discriminate.
Defined.

(** C7 on a function that returns and on one that raises. *)
Lemma tryCatch_both_ways :
  Result.tryCatch (λ _, mret (num 42)) (λ e, mret (message_of e)) start
  = (Return (Result.ok (num 42)), start)
  ∧ Result.tryCatch (λ _, raise (Error "test error")) (λ e, mret (message_of e)) start
    = (Return (Result.err (JsString "test error")), start).
Proof.
  split.
  - apply (proj1 (tryCatch_spec _ _ start start)). reflexivity.
  - apply (proj2 (tryCatch_spec _ _ start start) (Error "test error")
             (JsString "test error") start); reflexivity.
Defined.

(** C8 on the three ways of a chain. *)
Lemma async_chain_three_ways :
  heap w_ok !! 0 = Some (fresh (Fulfilled (Ok (num 5))))
  ∧ chain 0 (λ x, Later <$> async_call (ok (Now (plus 1 x)))) w_ok
    = (Return (JsAsyncResult 1),
       mkWorld [mkAsyncResult (Fulfilled (Ok (num 5))) (SlotData (Ok (num 5))) 1;
                fresh (Fulfilled (Ok (num 6)))] [])
  ∧ chain 0 (λ x, mret (Now (plus 1 x))) w_ok
    = (Return (JsAsyncResult 1),
       mkWorld [mkAsyncResult (Fulfilled (Ok (num 5))) (SlotData (Ok (num 5))) 1;
                fresh (Fulfilled (Ok (num 6)))] [])
  ∧ chain 0 (spy (λ x, mret (Now (plus 1 x)))) w_err
    = (Return (JsAsyncResult 1),
       mkWorld [mkAsyncResult (Fulfilled (Err (JsString "boom")))
                  (SlotData (Err (JsString "boom"))) 1;
                fresh (Fulfilled (Err (JsString "boom")))] []).
Proof.
  split_and!.
  - reflexivity.
  - exact (proj1 (async_chain_spec 0 _ w_ok
                    (λ x, Later <$> async_call (ok (Now (plus 1 x)))) eq_refl)
             (num 5) (JsAsyncResult 1) _ (fresh_holds _) eq_refl).
  - exact (proj1 (async_chain_spec 0 _ w_ok (λ x, mret (Now (plus 1 x))) eq_refl)
             (num 5) (num 6) _ (fresh_holds _) eq_refl).
  - apply (proj2 (async_chain_spec 0 _ w_err _ eq_refl) (JsString "boom")).
    apply fresh_holds.
Defined.

(** C9 on [tryCatch] and on the methods of what it made. *)
Lemma factory_objects_instance :
  (∃ this d,
      JsAsyncResult 0 = JsAsyncResult this
      ∧ heap w_err !! this = Some (fresh (Fulfilled d)))
  ∧ (∃ v w1, invoke (m_rMap (λ x, mret (Now (times 2 x)))) 0 w_ok = (Return v, w1))
  ∧ (∃ v w1, invoke m_unwrapErr 0 w_err = (Return v, w1)).
Proof.
  split_and!.
  - assert (Hc : construct (f_tryCatch (λ _, mret (Rejected (JsString "boom")))
                                        (λ e, mret e)) start
                 = (Return (JsAsyncResult 0), w_err)) by reflexivity.
    destruct (proj1 factory_objects_never_reject _ _ _ _ Hc)
      as (this & d & Heq & Hl & _).
    by exists this, d.
  - apply (proj2 factory_objects_never_reject
             (m_rMap (λ x, mret (Now (times 2 x)))) 0 _ (Ok (num 5)) w_ok
             eq_refl (fresh_holds _) eq_refl).
    intros x w. by eexists _, _.
  - by apply (proj2 factory_objects_never_reject m_unwrapErr 0 _
                (Err (JsString "boom")) w_err eq_refl (fresh_holds _) eq_refl).
Defined.



(** C2 on five calls in a row. *)
Lemma sequential_calls_instance :
  heap w_ok !! 0 = Some (fresh (Fulfilled (Ok (num 5))))
  ∧ ∃ o', heap (invoke_all
                  [m_isOk; m_rMap (λ x, mret (Now (times 2 x)));
                   m_chain (λ x, Later <$> async_call (ok (Now (plus 1 x))));
                   m_unwrap; m_isErr]
                  0 w_ok) !! 0 = Some o'
      ∧ awaits o' ≤ 1.
Proof.
  split; [reflexivity|].
  destruct (sequential_calls_await_once
              [m_isOk; m_rMap (λ x, mret (Now (times 2 x)));
               m_chain (λ x, Later <$> async_call (ok (Now (plus 1 x))));
               m_unwrap; m_isErr]
              0 (Ok (num 5)) w_ok eq_refl) as (o' & Hl & Hle & _).
  - repeat constructor.
    + intros x. apply evolving_ret.
    + intros x. apply evolving_fmap, evolving_async_call, evolving_ok.
  - by exists o'.
Defined.

(** C2 as stated fails when calls overlap.  [isOk()] and [isErr()] called
    on the object made by [AsyncResult.ok(5)] before either was resumed
    both find the field empty and both execute [await this.promise].  It
    fails as well on an object whose promise rejects, made with the
    constructor: every call finds the field empty. *)
Lemma overlapping_calls_counterexample :
  heap w_ok = [fresh (Fulfilled (Ok (num 5)))]
  ∧ awaits (object (run [Enter; Enter; Resume; Resume]
                        (idle (fresh (Fulfilled (Ok (num 5))))))) = 2
  ∧ ¬ awaits (object (run [Enter; Enter; Resume; Resume]
                          (idle (fresh (Fulfilled (Ok (num 5))))))) ≤ 1
  ∧ heap (invoke_all [m_isOk; m_isErr] 0 (new (Rejected (JsString "late")) start).2)
    = [mkAsyncResult (Rejected (JsString "late")) SlotNull 2].
Proof. split_and!; [reflexivity.. | simpl; lia | reflexivity]. Qed.


End Instances.

(** ** Result: the other combinators and accessors *)

Section ResultMore.

Import Result.

Implicit Types (r : Result.t) (v e c d : JsValue) (w : World).

(** X1. The law of [rMapErr], mirror of the one of [rMap]:
    [err(e).rMapErr(f).unwrapErr()] is [f(e)] with its effects and its
    outcome, and [ok(v).rMapErr(f).unwrap()] returns [v] and leaves the
    world as it was for every [f]. *)
Theorem rMapErr_functor_law v e (f : JsValue → M JsValue) w :
  (rMapErr (err e) f ≫= unwrapErr) w = f e w
  ∧ (rMapErr (ok v) f ≫= unwrap) w = (Return v, w).
Proof.
  split; [|reflexivity].
  unfold rMapErr; simpl. unfold_M. by destruct (f e w) as [[b|exn|] w1].
Qed.

(** X2. [rMap] and [rMapErr] preserve identity and composition: mapping the
    identity gives the receiver back, and mapping [f] and then [g] is
    mapping the function that runs [f] and then [g]. *)
Theorem rMap_identity_composition r (f g : JsValue → M JsValue) w :
  rMap r mret w = (Return r, w)
  ∧ rMapErr r mret w = (Return r, w)
  ∧ (rMap r f ≫= λ r1, rMap r1 g) w = rMap r (λ x, f x ≫= g) w
  ∧ (rMapErr r f ≫= λ r1, rMapErr r1 g) w = rMapErr r (λ x, f x ≫= g) w.
Proof.
  destruct r as [[value|error]]; split_and!; try reflexivity.
  - unfold rMap; simpl. unfold_M. by destruct (f value w) as [[b|exn|] w1].
  - unfold rMapErr; simpl. unfold_M. by destruct (f error w) as [[b|exn|] w1].
Qed.

(** X3. [match] after a map is a [match] with the mapped branch, the other
    branch untouched; and [unwrapOr(d)] is the [match] that gives [d] on a
    failure and the value on a success. *)
Theorem match_fusion r (f onErr onOk : JsValue → M JsValue) d w :
  (rMap r f ≫= λ r1, match_ r1 onErr onOk) w
  = match_ r onErr (λ x, f x ≫= onOk) w
  ∧ (rMapErr r f ≫= λ r1, match_ r1 onErr onOk) w
    = match_ r (λ x, f x ≫= onErr) onOk w
  ∧ match_ r (λ _, mret d) mret w = (Return (unwrapOr r d), w).
Proof.
  destruct r as [[value|error]]; split_and!; try reflexivity.
  - unfold rMap, match_; simpl. unfold_M. by destruct (f value w) as [[b|exn|] w1].
  - unfold rMapErr, match_; simpl. unfold_M. by destruct (f error w) as [[b|exn|] w1].
Qed.

(** X4. The guards: [isErr] is the negation of [isOk]; after [isOk()] the
    receiver is [ok(v)], [unwrap()] returns [v] without raising,
    [toPromise()] is the promise fulfilled with [v] and [unwrapOr] ignores
    its default; after [isErr()] the receiver is [err(e)], [unwrapErr()]
    returns [e], [toPromise()] is the promise rejected with [e] and
    [unwrapOr(d)] is [d]. *)
Theorem guards_make_unwrap_safe r :
  isErr r = negb (isOk r)
  ∧ (isOk r = true →
       ∃ v, r = ok v ∧ unwrap r = mret v ∧ toPromise r = Fulfilled v
            ∧ ∀ d, unwrapOr r d = v)
  ∧ (isErr r = true →
       ∃ e, r = err e ∧ unwrapErr r = mret e ∧ toPromise r = Rejected e
            ∧ ∀ d, unwrapOr r d = d).
Proof.
  destruct r as [[value|error]]; split_and!; try done.
  - intros _. by exists value.
  - intros _. by exists error.
Qed.

(** X5. The identities of [chain]: [ok(v).chain(f)] is [f(v)],
    [r.chain(ok)] is [r], and [rMap(f)] is the [chain] that wraps the
    result of [f] with [ok]. *)
Theorem chain_identities r v (f : JsValue → M Result.t) (g : JsValue → M JsValue) :
  chain (ok v) f = f v
  ∧ chain r (λ x, mret (ok x)) = mret r
  ∧ rMap r g = chain r (λ x, b ← g x; mret (ok b)).
Proof. by destruct r as [[value|error]]. Qed.

(** X6. [tryCatch] raises only through [onError]: with an [onError] that
    does not raise it never raises, whatever [f] does; and when [f] raises
    [c] and [onError(c)] raises [x], the call raises [x]. *)
Theorem tryCatch_raises_through_onError (f : () → M JsValue)
    (onError : JsValue → M JsValue) w :
  (never_raises onError → ∀ exn, (tryCatch f onError w).1 ≠ Raise exn)
  ∧ (∀ c x w1 w2,
       f () w = (Raise c, w1) → onError c w1 = (Raise x, w2) →
       tryCatch f onError w = (Raise x, w2)).
Proof.
  split.
  - intros Hon exn. unfold tryCatch.
    destruct (f () w) as [[value|error|] w1]; try done.
    unfold_M. destruct (onError error w1) as [[y|x|] w2] eqn:Hy; try done.
    intros _. eapply (Hon error w1). by rewrite Hy.
  - intros c x w1 w2 Hf Hon. unfold tryCatch. rewrite Hf. unfold_M.
    by rewrite Hon.
Qed.

End ResultMore.

(** ** AsyncResult: the other factories, combinators and accessors *)

Section AsyncMore.

Import AsyncResult.

Implicit Types (o : AsyncResultObject) (d : ResultData) (w : World)
  (this : ref) (v e : JsValue) (f : JsValue → M Awaitable).

(** The first step of a method on an object that holds [d]. *)
Ltac receiver Hl Hh :=
  erewrite bind_Return by (by eapply getResolvedData_holds; [apply Hl | apply Hh]);
  lazy beta iota.

(** X7. The accessors of an [AsyncResult] that holds [d] are those of the
    [Result] with the data [d], run once the receiver is resolved:
    [isOk], [isErr] and [unwrapOr] return what the synchronous ones
    compute, [unwrap] and [unwrapErr] end as the synchronous ones do, and
    [toPromise] ends as awaiting the synchronous [toPromise] does. *)
Theorem async_accessors_mirror_sync this o d w dflt :
  heap w !! this = Some o → holds o d →
  isOk this w = (Return (JsBool (Result.isOk (Result.new d))), memo this o w)
  ∧ isErr this w = (Return (JsBool (Result.isErr (Result.new d))), memo this o w)
  ∧ unwrapOr this dflt w
    = (Return (Result.unwrapOr (Result.new d) dflt), memo this o w)
  ∧ unwrap this w = Result.unwrap (Result.new d) (memo this o w)
  ∧ unwrapErr this w = Result.unwrapErr (Result.new d) (memo this o w)
  ∧ toPromise this w = await (Result.toPromise (Result.new d)) (memo this o w).
Proof.
  intros Hl Hh.
  unfold isOk, isErr, unwrapOr, unwrap, unwrapErr, toPromise.
  split_and!; receiver Hl Hh; by destruct d.
Qed.

(** X8. Asynchronous [rMap] and [rMapErr].  On the matching variant the
    function is invoked on the payload and its result awaited: when that
    returns [b] the outcome is a new object holding the other variant's
    payload replaced by [b], and when it raises [x] the call rejects with
    [x] and makes no object.  On the other variant the outcome is a new
    object holding the same data, for every function. *)
Theorem async_rMap_spec this o w f :
  heap w !! this = Some o →
  (∀ value b w1,
      holds o (Ok value) → awaited f value (memo this o w) = (Return b, w1) →
      rMap this f w
      = (Return (JsAsyncResult (length (heap w1))), extend w1 (Fulfilled (Ok b))))
  ∧ (∀ value x w1,
      holds o (Ok value) → awaited f value (memo this o w) = (Raise x, w1) →
      rMap this f w = (Raise x, w1))
  ∧ (∀ error,
      holds o (Err error) →
      rMap this f w
      = (Return (JsAsyncResult (length (heap (memo this o w)))),
         extend (memo this o w) (Fulfilled (Err error))))
  ∧ (∀ error b w1,
      holds o (Err error) → awaited f error (memo this o w) = (Return b, w1) →
      rMapErr this f w
      = (Return (JsAsyncResult (length (heap w1))), extend w1 (Fulfilled (Err b))))
  ∧ (∀ error x w1,
      holds o (Err error) → awaited f error (memo this o w) = (Raise x, w1) →
      rMapErr this f w = (Raise x, w1))
  ∧ (∀ value,
      holds o (Ok value) →
      rMapErr this f w
      = (Return (JsAsyncResult (length (heap (memo this o w)))),
         extend (memo this o w) (Fulfilled (Ok value)))).
Proof.
  intros Hl. unfold rMap, rMapErr. split_and!.
  - intros value b w1 Hh Hf. receiver Hl Hh. rewrite bind_awaited.
    by rewrite (bind_Return _ _ _ _ _ Hf).
  - intros value x w1 Hh Hf. receiver Hl Hh. rewrite bind_awaited.
    by rewrite (bind_Raise _ _ _ _ _ Hf).
  - intros error Hh. by receiver Hl Hh.
  - intros error b w1 Hh Hf. receiver Hl Hh. rewrite bind_awaited.
    by rewrite (bind_Return _ _ _ _ _ Hf).
  - intros error x w1 Hh Hf. receiver Hl Hh. rewrite bind_awaited.
    by rewrite (bind_Raise _ _ _ _ _ Hf).
  - intros value Hh. by receiver Hl Hh.
Qed.

(** X9. Asynchronous [match] runs one branch: on an object that holds a
    success it is the awaited call of [onOk] on the value, on one that
    holds a failure the awaited call of [onErr] on the error, in the
    world the resolution of the receiver left; the other branch is not
    invoked. *)
Theorem async_match_spec this o w (onErr onOk : JsValue → M Awaitable) :
  heap w !! this = Some o →
  (∀ value, holds o (Ok value) →
     match_ this onErr onOk w = awaited onOk value (memo this o w))
  ∧ (∀ error, holds o (Err error) →
     match_ this onErr onOk w = awaited onErr error (memo this o w)).
Proof.
  intros Hl. unfold match_. split; intros x Hh; by receiver Hl Hh.
Qed.

(** X11. The factories [ok], [err] and [fromNullableWithError] await
    their input and do not catch: given a promise that rejects with [r]
    they reject with [r] and make no object, and given a promise fulfilled
    with [v] they do what they do on [v].  [fromPromise] is the one that
    turns the rejection into a failure, holding [onError(r)]. *)
Theorem factories_propagate_rejection r v error (onError : JsValue → M JsValue) w :
  ok (Later (Rejected r)) w = (Raise r, w)
  ∧ err (Later (Rejected r)) w = (Raise r, w)
  ∧ fromNullableWithError error (Later (Rejected r)) w = (Raise r, w)
  ∧ ok (Later (Fulfilled v)) w = ok (Now v) w
  ∧ err (Later (Fulfilled v)) w = err (Now v) w
  ∧ fromNullableWithError error (Later (Fulfilled v)) w
    = fromNullableWithError error (Now v) w
  ∧ (∀ e' w1,
       onError r w = (Return e', w1) →
       fromPromise (Rejected r) onError w
       = (Return (JsAsyncResult (length (heap w1))), extend w1 (Fulfilled (Err e')))).
Proof.
  split_and!; try reflexivity.
  intros e' w1 Hon. unfold fromPromise; simpl. unfold_M. by rewrite Hon.
Qed.

(** X12. [tryCatch(f, onError)] is [fromPromise(f(), onError)], and a
    value that [f] raises before returning its promise is handled as a
    promise rejected with that value. *)
Theorem tryCatch_is_fromPromise (g : () → M (Promise JsValue))
    (onError : JsValue → M JsValue) w :
  (∀ p w1, g () w = (Return p, w1) →
     tryCatch g onError w = fromPromise p onError w1)
  ∧ (∀ c w1, g () w = (Raise c, w1) →
     tryCatch g onError w = fromPromise (Rejected c) onError w1).
Proof.
  split.
  - intros p w1 Hg. unfold tryCatch, fromPromise.
    by rewrite (bind_Return _ _ _ _ _ Hg).
  - intros c w1 Hg. unfold tryCatch, fromPromise.
    by rewrite (bind_Raise _ _ _ _ _ Hg).
Qed.

(** X13. The asynchronous [fromNullableWithError] makes the object that
    holds the data of the synchronous one, applied to the value its input
    is fulfilled with. *)
Theorem async_fromNullableWithError_mirrors_sync error value v w :
  Promise_resolve value = Fulfilled v →
  fromNullableWithError error value w
  = (Return (JsAsyncResult (length (heap w))),
     extend w (Fulfilled (Result.data (Result.fromNullableWithError error v)))).
Proof.
  intros Hv. unfold fromNullableWithError, Result.fromNullableWithError.
  rewrite Hv; simpl. unfold_M. by destruct (looselyEqualsNull v).
Qed.

(** X14. Round trip through a promise: [fromPromise(r.toPromise(), e => e)]
    makes the object that holds the data of the [Result] [r], and on an
    [AsyncResult] that holds [d] the promise [toPromise()] returns, given
    to [fromPromise] with the same handler, makes a new object that holds
    [d]. *)
Theorem toPromise_fromPromise_round_trip (r : Result.t) this o d w :
  fromPromise (Result.toPromise r) mret w
  = (Return (JsAsyncResult (length (heap w))), extend w (Fulfilled (Result.data r)))
  ∧ (heap w !! this = Some o → holds o d →
     (p ← async_call (toPromise this); fromPromise p mret) w
     = (Return (JsAsyncResult (length (heap (memo this o w)))),
        extend (memo this o w) (Fulfilled d))).
Proof.
  split.
  - by destruct r as [[value|error]].
  - intros Hl Hh.
    assert (Ht : toPromise this w
                 = await (Result.toPromise (Result.new d)) (memo this o w)).
    { unfold toPromise. receiver Hl Hh. by destruct d. }
    unfold_M. unfold async_call. rewrite Ht. by destruct d.
Qed.

(** X15. An object whose promise rejects with [r], as the constructor
    accepts: every method rejects with [r] without invoking any function
    handed to it, the field stays null, and the await is counted; with a
    promise that never settles no method completes. *)
Theorem rejected_promise_rejects_every_method m this o w :
  heap w !! this = Some o → resolvedData o = SlotNull →
  (∀ r, promise o = Rejected r →
     invoke m this w
     = (Raise r,
        mkWorld (<[this := mkAsyncResult (Rejected r) SlotNull (S (awaits o))]> (heap w))
                (trace w)))
  ∧ (promise o = Pending →
     invoke m this w
     = (Diverge,
        mkWorld (<[this := mkAsyncResult Pending SlotNull (S (awaits o))]> (heap w))
                (trace w))).
Proof.
  intros Hl Hs.
  pose proof (getResolvedData_spec this o w Hl) as Hg.
  unfold AsyncResult.resolved, memo in Hg. rewrite (memoize_empty o Hs), Hs in Hg.
  split.
  - intros r Hp. rewrite Hp in Hg.
    destruct m; simpl;
      unfold rMap, rMapErr, chain, match_, unwrap, unwrapOr, unwrapErr,
        toPromise, isOk, isErr;
      by rewrite (bind_Raise _ _ _ _ _ Hg).
  - intros Hp. rewrite Hp in Hg.
    destruct m; simpl;
      unfold rMap, rMapErr, chain, match_, unwrap, unwrapOr, unwrapErr,
        toPromise, isOk, isErr;
      by rewrite (bind_Diverge _ _ _ _ Hg).
Qed.

(** X10. The functor law of the asynchronous [rMap]: on an object that
    holds [Ok value], when the awaited [f(value)] returns [b], [unwrap()]
    on what [rMap(f)] returns gives [b]; on an object that holds
    [Err error], [unwrapErr()] on what [rMap(f)] returns gives [error],
    for every [f]. *)
Theorem async_rMap_functor_law this o w f :
  heap w !! this = Some o →
  (∀ value b w1,
      holds o (Ok value) → awaited f value (memo this o w) = (Return b, w1) →
      (r ← rMap this f; call r m_unwrap) w
      = (Return b,
         memo (length (heap w1)) (fresh (Fulfilled (Ok b)))
              (extend w1 (Fulfilled (Ok b)))))
  ∧ (∀ error,
      holds o (Err error) →
      (r ← rMap this f; call r m_unwrapErr) w
      = (Return error,
         memo (length (heap (memo this o w))) (fresh (Fulfilled (Err error)))
              (extend (memo this o w) (Fulfilled (Err error))))).
Proof.
  intros Hl. split.
  - intros value b w1 Hh Hf.
    erewrite bind_Return; last first.
    { unfold rMap. receiver Hl Hh. rewrite bind_awaited.
      by rewrite (bind_Return _ _ _ _ _ Hf). }
    unfold call, invoke; lazy beta iota. unfold unwrap.
    by erewrite bind_Return
      by (eapply getResolvedData_holds;
          [apply (extend_lookup w1 (Fulfilled (Ok b))) | apply fresh_holds]).
  - intros error Hh.
    erewrite bind_Return; last first.
    { unfold rMap. by receiver Hl Hh. }
    unfold call, invoke; lazy beta iota. unfold unwrapErr.
    by erewrite bind_Return
      by (eapply getResolvedData_holds;
          [apply (extend_lookup (memo this o w) (Fulfilled (Err error)))
          | apply fresh_holds]).
Qed.

(** The accessors end the same way on every state of an object that holds
    [d], and leave the object memoised. *)
Lemma accessor_outcome m d :
  accessor m = true →
  ∃ out, ∀ this o w,
    heap w !! this = Some o → holds o d →
    invoke m this w = (out, memo this o w).
Proof.
  intros Ha.
  exists (invoke m 0 (mkWorld [fresh (Fulfilled d)] [])).1.
  intros this o w Hl Hh.
  assert (H0 : heap (mkWorld [fresh (Fulfilled d)] []) !! 0
               = Some (fresh (Fulfilled d))) by reflexivity.
  destruct m; try discriminate; simpl;
    unfold unwrap, unwrapOr, unwrapErr, toPromise, isOk, isErr;
    receiver Hl Hh; receiver H0 (fresh_holds d);
    destruct d as [value|error]; unfold_M; simpl; try reflexivity.
  by destruct (ToString error).
Qed.

Lemma memo_lookup this o w :
  heap w !! this = Some o → heap (memo this o w) !! this = Some (memoize o).
Proof. intros Hl. simpl. apply list_lookup_insert_eq. by eapply lookup_lt_Some. Qed.

Lemma memo_memo this o d w :
  holds o d → memo this (memoize o) (memo this o w) = memo this o w.
Proof.
  intros [Hp Hs]. unfold memo; simpl. rewrite list_insert_insert_eq.
  assert (Hd : resolvedData (memoize o) = SlotData d).
  { destruct Hs as [Hs|Hs].
    - by rewrite (memoize_empty o Hs), Hp.
    - by rewrite (memoize_populated o d Hs). }
  by rewrite (memoize_populated _ d Hd).
Qed.

(** X17. Repeated access: on an object that holds [d], an accessor called
    again after any accessor ends as it does when called first, and only
    the first call changes the world. *)
Theorem repeated_access_same_outcome m m' this o d w :
  accessor m = true → accessor m' = true →
  heap w !! this = Some o → holds o d →
  invoke m' this (invoke m this w).2 = ((invoke m' this w).1, (invoke m this w).2).
Proof.
  intros Ha Ha' Hl Hh.
  destruct (accessor_outcome m d Ha) as (out & Hm).
  destruct (accessor_outcome m' d Ha') as (out' & Hm').
  rewrite (Hm this o w Hl Hh), (Hm' this o w Hl Hh); simpl.
  rewrite (Hm' this (memoize o) (memo this o w)
             (memo_lookup _ _ _ Hl) (holds_memoize _ _ Hh)).
  by rewrite (memo_memo this o d w Hh).
Qed.

(** What [chain] returns is an [AsyncResult]. *)
Lemma chain_returns_instance this g w r w1 :
  chain this g w = (Return r, w1) → instanceof_AsyncResult r = true.
Proof.
  unfold chain. unfold_M.
  destruct (getResolvedData this w) as [[data|x|] w2]; try discriminate.
  destruct data as [|[value|error]]; try discriminate.
  - destruct (g value w2) as [[y|x|] w3]; try discriminate.
    destruct (Promise_resolve y) as [result|reason|]; simpl; try discriminate.
    destruct (instanceof_AsyncResult result) eqn:Hi.
    + by intros [= <- <-].
    + intros H. by destruct (ok_made _ _ _ _ H) as (? & ? & -> & _).
  - intros H. by destruct (err_made _ _ _ _ H) as (? & ? & -> & _).
Qed.

(** X18. Associativity of the asynchronous [chain].  On an object that
    holds a success, when the awaited [f(value)] is an [AsyncResult],
    [r.chain(f)] followed by [chain(g)] is [r.chain] of the function that
    awaits [f] and chains [g], outcome and world alike.  On an object that
    holds a failure both return a new object holding the same error, and
    the first made one object more. *)
Theorem async_chain_associative this o w (f g : JsValue → M Awaitable) :
  heap w !! this = Some o →
  (∀ value a w1,
      holds o (Ok value) →
      awaited f value (memo this o w) = (Return (JsAsyncResult a), w1) →
      (c ← chain this f; call c (m_chain g)) w = chain this (then_chain f g) w)
  ∧ (∀ error,
      holds o (Err error) →
      ∃ a b wl wr,
        (c ← chain this f; call c (m_chain g)) w = (Return (JsAsyncResult a), wl)
        ∧ chain this (then_chain f g) w = (Return (JsAsyncResult b), wr)
        ∧ heap wl !! a = Some (fresh (Fulfilled (Err error)))
        ∧ heap wr !! b = Some (fresh (Fulfilled (Err error)))
        ∧ length (heap wl) = S (length (heap wr))).
Proof.
  intros Hl. split.
  - intros value a w1 Hh Hf.
    assert (Hc : chain this f w = (Return (JsAsyncResult a), w1)).
    { unfold chain. receiver Hl Hh. rewrite bind_awaited.
      by rewrite (bind_Return _ _ _ _ _ Hf). }
    rewrite (bind_Return _ _ _ _ _ Hc).
    unfold call, invoke; lazy beta iota.
    unfold chain at 2. receiver Hl Hh. unfold then_chain.
    unfold async_call. unfold_M. lazy beta. rewrite Hf. lazy beta iota.
    change (call (JsAsyncResult a) (m_chain g) w1) with (chain a g w1).
    destruct (chain a g w1) as [[r|x|] w2] eqn:Hg; simpl; try reflexivity.
    by rewrite (chain_returns_instance _ _ _ _ _ Hg).
  - intros error Hh.
    assert (Hc : chain this f w
                 = (Return (JsAsyncResult (length (heap (memo this o w)))),
                    extend (memo this o w) (Fulfilled (Err error)))).
    { unfold chain. by receiver Hl Hh. }
    eexists _, _, _, _. split_and!.
    + rewrite (bind_Return _ _ _ _ _ Hc).
      unfold call, invoke; lazy beta iota. unfold chain.
      by erewrite bind_Return
        by (eapply getResolvedData_holds;
            [apply (extend_lookup (memo this o w) (Fulfilled (Err error)))
            | apply fresh_holds]).
    + unfold chain. by receiver Hl Hh.
    + simpl. rewrite length_insert.
      apply list_lookup_middle. by rewrite length_insert.
    + apply extend_lookup.
    + simpl. rewrite !length_app, !length_insert, !length_app; simpl.
      rewrite !length_insert. lia.
Qed.

End AsyncMore.

(** ** AsyncResult: how often overlapping calls await *)

Section Awaits.

Import AsyncResult.

Implicit Types (s : Sched) (p : Promise ResultData).

Lemma run_awaits evs s :
  parked s ≤ awaits (object s) →
  parked (run evs s) ≤ awaits (object (run evs s))
  ∧ awaits (object (run evs s)) ≤ awaits (object s) + entered evs.
Proof.
  revert s. induction evs as [|e evs IH]; intros s Hs; [simpl; lia|].
  assert (Hstep : parked (step s e) ≤ awaits (object (step s e))
                  ∧ awaits (object (step s e))
                    ≤ awaits (object s) + match e with Enter => 1 | Resume => 0 end).
  { destruct e; simpl.
    - unfold enter.
      destruct (negb (ToBoolean (js_of_slot (resolvedData (object s))))); simpl; lia.
    - unfold resume. destruct (parked s) as [|n] eqn:Hn; [lia|].
      destruct (promise (object s)); simpl; lia. }
  destruct Hstep as [Hp Ha]. destruct (IH (step s e) Hp) as [IHp IHa].
  split; [exact IHp|]. destruct e; simpl in *; lia.
Qed.

(** X16. However calls on a new object overlap, [await this.promise] is
    executed at most once for each call started, and every call still
    suspended has executed it. *)
Theorem awaits_bounded_by_calls p evs :
  parked (run evs (idle (fresh p))) ≤ awaits (object (run evs (idle (fresh p))))
  ∧ awaits (object (run evs (idle (fresh p)))) ≤ entered evs.
Proof.
  destruct (run_awaits evs (idle (fresh p))) as [Hp Ha]; [simpl; lia|].
  split; [exact Hp | exact Ha].
Qed.

End Awaits.

(** ** Instances of the further properties *)

Section MoreInstances.

Import AsyncResult.

(** X4 on [ok(42)] and [err("error")]. *)
Lemma guards_instance :
  Result.isOk (Result.ok (num 42)) = true
  ∧ Result.isErr (Result.err (JsString "error")) = true
  ∧ Result.unwrap (Result.ok (num 42)) = mret (num 42)
  ∧ Result.unwrapErr (Result.err (JsString "error")) = mret (JsString "error").
Proof.
  split_and!; [reflexivity | reflexivity | |].
  - destruct (proj1 (proj2 (guards_make_unwrap_safe (Result.ok (num 42)))) eq_refl)
      as (v & [= <-] & Hu & _).
    exact Hu.
  - destruct (proj2 (proj2 (guards_make_unwrap_safe (Result.err (JsString "error"))))
                eq_refl) as (e & [= <-] & Hu & _).
    exact Hu.
Defined.

(** X6 on a handler that returns and on one that raises. *)
Lemma tryCatch_handler_instance :
  never_raises (λ e, mret (message_of e))
  ∧ (Result.tryCatch (λ _, raise (Error "boom")) (λ e, mret (message_of e)) start).1
    ≠ Raise (JsString "boom")
  ∧ Result.tryCatch (λ _, raise (Error "boom")) (λ _, raise (JsString "handler")) start
    = (Raise (JsString "handler"), start).
Proof.
  assert (Hn : never_raises (λ e : JsValue, mret (message_of e) : M JsValue))
    by (intros x w exn; discriminate).
  split_and!.
  - exact Hn.
  - apply (proj1 (tryCatch_raises_through_onError _ _ start) Hn).
  - apply (proj2 (tryCatch_raises_through_onError _ _ start)
             (Error "boom") (JsString "handler") start start); reflexivity.
Defined.

(** X7 on the object made by [AsyncResult.ok(5)]. *)
Lemma async_accessors_instance :
  heap w_ok !! 0 = Some (fresh (Fulfilled (Ok (num 5))))
  ∧ (isOk 0 w_ok).1 = Return (JsBool true)
  ∧ (unwrapOr 0 (num 0) w_ok).1 = Return (num 5)
  ∧ (unwrapErr 0 w_ok).1 = Raise (Error "Called unwrapErr on an Ok value").
Proof.
  destruct (async_accessors_mirror_sync 0 _ (Ok (num 5)) w_ok (num 0)
              eq_refl (fresh_holds _)) as (H1 & _ & H3 & _ & H5 & _).
  split_and!; [reflexivity | by rewrite H1 | by rewrite H3 | by rewrite H5].
Defined.

(** X8 on a doubling function. *)
Lemma async_rMap_instance :
  heap w_ok !! 0 = Some (fresh (Fulfilled (Ok (num 5))))
  ∧ rMap 0 (λ x, mret (Now (times 2 x))) w_ok
    = (Return (JsAsyncResult 1),
       mkWorld [mkAsyncResult (Fulfilled (Ok (num 5))) (SlotData (Ok (num 5))) 1;
                fresh (Fulfilled (Ok (num 10)))] [])
  ∧ rMap 0 (spy (λ x, mret (Now (times 2 x)))) w_err
    = (Return (JsAsyncResult 1),
       mkWorld [mkAsyncResult (Fulfilled (Err (JsString "boom")))
                  (SlotData (Err (JsString "boom"))) 1;
                fresh (Fulfilled (Err (JsString "boom")))] []).
Proof.
  split_and!.
  - reflexivity.
  - exact (proj1 (async_rMap_spec 0 _ w_ok (λ x, mret (Now (times 2 x))) eq_refl)
             (num 5) (num 10) _ (fresh_holds _) eq_refl).
  - exact (proj1 (proj2 (proj2 (async_rMap_spec 0 _ w_err
                                  (spy (λ x, mret (Now (times 2 x)))) eq_refl)))
             (JsString "boom") (fresh_holds _)).
Defined.

(** X9 on both variants. *)
Lemma async_match_instance :
  (match_ 0 (λ e, mret (Now (JsString "failed"))) (λ x, mret (Now (times 2 x))) w_ok).1
  = Return (num 10)
  ∧ (match_ 0 (λ e, mret (Now (JsString "failed"))) (λ x, mret (Now (times 2 x))) w_err).1
    = Return (JsString "failed").
Proof.
  split.
  - by rewrite (proj1 (async_match_spec 0 _ w_ok _ _ eq_refl) (num 5) (fresh_holds _)).
  - by rewrite (proj2 (async_match_spec 0 _ w_err _ _ eq_refl) (JsString "boom")
                  (fresh_holds _)).
Defined.

(** X10 on a doubling function. *)
Lemma async_functor_instance :
  ((r ← rMap 0 (λ x, mret (Now (times 2 x))); call r m_unwrap) w_ok).1
  = Return (num 10)
  ∧ ((r ← rMap 0 (λ x, mret (Now (times 2 x))); call r m_unwrapErr) w_err).1
    = Return (JsString "boom").
Proof.
  split.
  - assert (Hf : awaited (λ x, mret (Now (times 2 x))) (num 5)
                   (memo 0 (fresh (Fulfilled (Ok (num 5)))) w_ok)
                 = (Return (num 10), memo 0 (fresh (Fulfilled (Ok (num 5)))) w_ok))
      by reflexivity.
    by rewrite (proj1 (async_rMap_functor_law 0 _ w_ok
                         (λ x, mret (Now (times 2 x))) eq_refl)
                  (num 5) (num 10) _ (fresh_holds _) Hf).
  - by rewrite (proj2 (async_rMap_functor_law 0 _ w_err
                         (λ x, mret (Now (times 2 x))) eq_refl)
                  (JsString "boom") (fresh_holds _)).
Defined.

(** X11 on a promise rejected with an [Error]. *)
Lemma factories_rejection_instance :
  ok (Later (Rejected (Error "down"))) start = (Raise (Error "down"), start)
  ∧ fromPromise (Rejected (Error "down")) (λ e, mret (message_of e)) start
    = (Return (JsAsyncResult 0),
       mkWorld [fresh (Fulfilled (Err (JsString "down")))] []).
Proof.
  destruct (factories_propagate_rejection (Error "down") JsNull JsNull
              (λ e, mret (message_of e)) start) as (H1 & _ & _ & _ & _ & _ & H7).
  split; [exact H1|].
  exact (H7 (JsString "down") start eq_refl).
Defined.

(** X12 on a function that returns a promise and on one that raises. *)
Lemma tryCatch_fromPromise_instance :
  tryCatch (λ _, mret (Fulfilled (num 42))) (λ e, mret (message_of e)) start
  = fromPromise (Fulfilled (num 42)) (λ e, mret (message_of e)) start
  ∧ tryCatch (λ _, raise (Error "boom")) (λ e, mret (message_of e)) start
    = fromPromise (Rejected (Error "boom")) (λ e, mret (message_of e)) start.
Proof.
  split.
  - exact (proj1 (tryCatch_is_fromPromise _ _ start) (Fulfilled (num 42)) start eq_refl).
  - exact (proj2 (tryCatch_is_fromPromise _ _ start) (Error "boom") start eq_refl).
Defined.

(** X13 on a promise of [null] and on the number [0]. *)
Lemma async_fromNullableWithError_instance :
  fromNullableWithError (JsString "missing") (Later (Fulfilled JsNull)) start
  = (Return (JsAsyncResult 0),
     mkWorld [fresh (Fulfilled (Err (JsString "missing")))] [])
  ∧ fromNullableWithError (JsString "missing") (Now (num 0)) start
    = (Return (JsAsyncResult 0), mkWorld [fresh (Fulfilled (Ok (num 0)))] []).
Proof.
  split.
  - exact (async_fromNullableWithError_mirrors_sync (JsString "missing")
             (Later (Fulfilled JsNull)) JsNull start eq_refl).
  - exact (async_fromNullableWithError_mirrors_sync (JsString "missing")
             (Now (num 0)) (num 0) start eq_refl).
Defined.

(** X14 on the object made by [AsyncResult.err("boom")]. *)
Lemma round_trip_instance :
  heap w_err !! 0 = Some (fresh (Fulfilled (Err (JsString "boom"))))
  ∧ (p ← async_call (toPromise 0); fromPromise p mret) w_err
    = (Return (JsAsyncResult 1),
       mkWorld [mkAsyncResult (Fulfilled (Err (JsString "boom")))
                  (SlotData (Err (JsString "boom"))) 1;
                fresh (Fulfilled (Err (JsString "boom")))] []).
Proof.
  split; [reflexivity|].
  exact (proj2 (toPromise_fromPromise_round_trip (Result.ok JsNull) 0 _
                  (Err (JsString "boom")) w_err) eq_refl (fresh_holds _)).
Defined.

(** X15 on an object made with the constructor. *)
Lemma rejected_promise_instance :
  heap (new (Rejected (JsString "late")) start).2 !! 0
  = Some (fresh (Rejected (JsString "late")))
  ∧ invoke (m_rMap (spy (λ x, mret (Now x)))) 0
      (new (Rejected (JsString "late")) start).2
    = (Raise (JsString "late"),
       mkWorld [mkAsyncResult (Rejected (JsString "late")) SlotNull 1] []).
Proof.
  split; [reflexivity|].
  exact (proj1 (rejected_promise_rejects_every_method
                  (m_rMap (spy (λ x, mret (Now x)))) 0 _
                  (new (Rejected (JsString "late")) start).2 eq_refl eq_refl)
           (JsString "late") eq_refl).
Defined.

(** X17 on [isOk()] followed by [unwrap()]. *)
Lemma repeated_access_instance :
  accessor m_isOk = true ∧ accessor m_unwrap = true
  ∧ invoke m_unwrap 0 (invoke m_isOk 0 w_ok).2
    = (Return (num 5), (invoke m_isOk 0 w_ok).2).
Proof.
  split_and!; [reflexivity..|].
  exact (repeated_access_same_outcome m_isOk m_unwrap 0 _ (Ok (num 5)) w_ok
           eq_refl eq_refl eq_refl (fresh_holds _)).
Defined.

(** X18 on [x => AsyncResult.ok(x + 1)] and [x => AsyncResult.ok(x * 2)]. *)
Lemma async_chain_associative_instance :
  (c ← chain 0 (λ x, Later <$> async_call (ok (Now (plus 1 x))));
   call c (m_chain (λ x, Later <$> async_call (ok (Now (times 2 x)))))) w_ok
  = chain 0 (then_chain (λ x, Later <$> async_call (ok (Now (plus 1 x))))
                        (λ x, Later <$> async_call (ok (Now (times 2 x))))) w_ok.
Proof.
  exact (proj1 (async_chain_associative 0 _ w_ok
                  (λ x, Later <$> async_call (ok (Now (plus 1 x))))
                  (λ x, Later <$> async_call (ok (Now (times 2 x)))) eq_refl)
           (num 5) 1 _ (fresh_holds _) eq_refl).
Defined.

End MoreInstances.
